(** * Dead DML method detection ([py/dead_dml_methods.py])

    A shallow embedding of the module that finds dead DML methods from the
    [#line] directives of DMLC-generated C files, together with the
    properties its specification states about it.

    Python values are modelled as follows:
    - a [str] is the list of its Unicode code points ([N]);
    - an [int] is a [Z]; [math.inf] is the extra element [Inf] of [mark];
    - a [pathlib.Path] is identified with its string form;
    - a raised exception is the [None] of an [option] result;
    - an insertion-ordered [dict] that is iterated is an association list,
      a [dict] that is only returned is a [gmap], a [set] of [int] is a
      [gset Z]. *)

From Stdlib Require Import ZArith NArith List String Ascii Bool Lia.
From stdpp Require Import base option list sorting gmap.

Set Warnings "-register-all".

Local Open Scope N_scope.

(** ** Python strings *)

Abbreviation char := N (only parsing).
Abbreviation str := (list N) (only parsing).

(** A literal of the source, as its sequence of code points. *)
Definition lit (s : string) : str :=
  map N_of_ascii (list_ascii_of_string s).

Definition LF : char := 10.
Definition CR : char := 13.

(** [str.splitlines] recognises these line boundaries: LF, CR, CR LF, VT,
    FF, FS, GS, RS, NEL, LINE SEPARATOR and PARAGRAPH SEPARATOR. *)
Definition is_linebreak (c : char) : bool :=
  (c =? 10) || (c =? 13) || (c =? 11) || (c =? 12) || (c =? 28)
  || (c =? 29) || (c =? 30) || (c =? 133) || (c =? 8232) || (c =? 8233).

(** [s.splitlines()] with [keepends=False].  [cur] is the current line in
    reverse, [after_cr] tells that the previous character was a CR that
    ended a line, so that a LF directly after it belongs to the same
    boundary.  A last line is only produced when it is not empty. *)
Fixpoint splitlines_go (after_cr : bool) (cur : str) (s : str) : list str :=
  match s with
  | [] => match cur with [] => [] | _ :: _ => [rev cur] end
  | c :: s' =>
      if after_cr && (c =? LF) then splitlines_go false [] s'
      else if is_linebreak c then rev cur :: splitlines_go (c =? CR) [] s'
      else splitlines_go false (c :: cur) s'
  end.

Definition splitlines (s : str) : list str := splitlines_go false [] s.

(** ** The fragment of [re] the module uses

    A backtracking matcher in the style of [re]: [run r c] lists the
    cursors at which [r] can stop when started at [c], in the order in
    which the backtracking engine tries them (greedy repetitions first
    try one more iteration).  The match [re] reports is the first one. *)

Inductive regex : Type :=
| Eps
| Chr (c : char)              (* a literal character *)
| Dot                         (* [.] without DOTALL: anything but LF *)
| Range (lo hi : char)        (* [[lo-hi]] *)
| Bol                         (* [^] under re.M *)
| Eol                         (* [$] under re.M *)
| Cat (r1 r2 : regex)
| Star (r : regex)            (* greedy [r*] *)
| Group (n : nat) (r : regex) (* the n-th capturing group *).

Definition Plus (r : regex) : regex := Cat r (Star r).
Definition Lit (s : str) : regex := foldr (fun c r => Cat (Chr c) r) Eps s.
Definition Seq (rs : list regex) : regex := foldr Cat Eps rs.

(** A position in the subject: the character before it (if any), the text
    after it, and the groups captured so far (latest first). *)
Record cursor : Type := Cursor {
  prev : option char;
  rest : str;
  groups : list (nat * str)
}.

Definition start (s : str) : cursor := Cursor None s [].

Definition step (c : cursor) : list cursor :=
  match rest c with
  | [] => []
  | y :: s => [Cursor (Some y) s (groups c)]
  end.

Definition next_is (p : char -> bool) (c : cursor) : bool :=
  match rest c with [] => false | y :: _ => p y end.

(** The text consumed between cursor [c] and a later cursor [c']. *)
Definition consumed (c c' : cursor) : str :=
  take (length (rest c) - length (rest c')) (rest c).

Definition capture (n : nat) (c c' : cursor) : cursor :=
  Cursor (prev c') (rest c') ((n, consumed c c') :: groups c').

(** The greedy repetition of [body]: first the matches that start with
    one more iteration, then the cursor itself.  An iteration has to
    consume something; [fuel] bounds the iterations by the length of the
    text that is left. *)
Fixpoint star_loop (body : cursor -> list cursor) (fuel : nat) (c : cursor)
  : list cursor :=
  match fuel with
  | O => [c]
  | S fuel' =>
      flat_map (fun c' => if (length (rest c') <? length (rest c))%nat
                          then star_loop body fuel' c' else [])
               (body c)
      ++ [c]
  end.

Fixpoint run (r : regex) (c : cursor) : list cursor :=
  match r with
  | Eps => [c]
  | Chr x => if next_is (N.eqb x) c then step c else []
  | Dot => if next_is (fun y => negb (y =? LF)) c then step c else []
  | Range lo hi => if next_is (fun y => (lo <=? y) && (y <=? hi)) c then step c else []
  | Bol => match prev c with
           | None => [c]
           | Some p => if p =? LF then [c] else []
           end
  | Eol => match rest c with
           | [] => [c]
           | y :: _ => if y =? LF then [c] else []
           end
  | Cat r1 r2 => flat_map (run r2) (run r1 c)
  | Star r' => star_loop (run r') (length (rest c)) c
  | Group n r' => map (capture n c) (run r' c)
  end.

(** [pattern.match(s)]: the first way to match at the start of [s]. *)
Definition re_match (r : regex) (s : str) : option cursor :=
  head (run r (start s)).

(** [m.group(n)] *)
Definition group (n : nat) (m : cursor) : option str :=
  snd <$> head (filter (fun g => fst g = n) (groups m)).

(** [pattern.finditer(s)]: the leftmost match, then the leftmost match
    after it, and so on.  [skip] counts the characters of the last match
    still to be passed over. *)
Fixpoint finditer_from (r : regex) (skip : nat) (p : option char) (s : str)
  {struct s} : list cursor :=
  match skip with
  | S k => match s with
           | [] => []
           | y :: s' => finditer_from r k (Some y) s'
           end
  | O => match run r (Cursor p s []) with
         | m :: _ =>
             m :: match s with
                  | [] => []
                  | y :: s' =>
                      finditer_from r (pred (length s - length (rest m))) (Some y) s'
                  end
         | [] => match s with
                 | [] => []
                 | y :: s' => finditer_from r O (Some y) s'
                 end
         end
  end.

Definition finditer (r : regex) (s : str) : list cursor :=
  finditer_from r O None s.

(** A regex without groups. *)
Fixpoint plain (r : regex) : bool :=
  match r with
  | Cat r1 r2 => plain r1 && plain r2
  | Star r' => plain r'
  | Group _ _ => false
  | _ => true
  end.

(** The cursor after [c] once the text [s] has been read. *)
Fixpoint feed (s : str) (c : cursor) : cursor :=
  match s with
  | [] => c
  | y :: s' => feed s' (Cursor (Some y) (tail (rest c)) (groups c))
  end.

(** ** Provenance Extractor *)

(** [c_dml_header_re]: the four literal header lines, then group 1, a
    greedy repetition of lines made of the five characters space, star,
    space, space, space followed by [.*] and a LF, then the closing
    space, star, slash. *)
Definition c_dml_header : str := lit "/*
 * Generated by dmlc, do not edit!
 *
 * Source files:
".

Definition header_line_re : regex :=
  Seq [Lit (lit " *   "); Star Dot; Chr LF].

Definition c_dml_header_re : regex :=
  Seq [ Lit c_dml_header; Group 1 (Star header_line_re); Lit (lit " */") ].

(** [[line[5:] for line in c_dml_header_re.match(body).group(1).splitlines()]];
    [None] when [match] returns [None] (the attribute access then raises). *)
Definition dml_sources_from_body (body : str) : option (list str) :=
  m ← re_match c_dml_header_re body;
  g ← group 1 m;
  Some (map (drop 5) (splitlines g)).

(** A line of the header that lists the source file [path], and a whole
    header for a list of source files. *)
Definition header_line (path : str) : str := lit " *   " ++ path ++ [LF].

Definition header_block (paths : list str) : str :=
  c_dml_header ++ concat (map header_line paths) ++ lit " */".

(** ** Integers, sentinels and orderings *)

Local Open Scope Z_scope.

(** [int(s)] on a non-empty string of ASCII digits, which is all that
    group 1 of [line_directive_re] can hold; anything else is a
    [ValueError] here. *)
Definition digit_value (c : char) : option Z :=
  if ((48 <=? c) && (c <=? 57))%N then Some (Z.of_N (c - 48)) else None.

Fixpoint int_go (acc : Z) (s : str) : option Z :=
  match s with
  | [] => Some acc
  | c :: s' => d ← digit_value c; int_go (10 * acc + d) s'
  end.

Definition int (s : str) : option Z :=
  match s with
  | [] => None
  | _ :: _ => int_go 0 s
  end.

(** The characters of [[0-9]]. *)
Definition is_digit (y : N) : Prop := (48 <= y <= 57)%N.

(** An element of [sorted(linemarks) + [math.inf]]. *)
Inductive mark : Type :=
| Line (n : Z)
| Inf.

(** [m > last_line] and [m <= last_line] for a mark [m]. *)
Definition mark_gt (m : mark) (last_line : Z) : bool :=
  match m with
  | Line n => last_line <? n
  | Inf => true
  end.

Definition mark_le (m : mark) (last_line : Z) : bool :=
  match m with
  | Line n => n <=? last_line
  | Inf => false
  end.

(** Python compares strings by code point and sequences lexicographically. *)
Definition str_compare : str -> str -> comparison := list_compare N.compare.

(** [sorted(l)]: a stable sort that only asks [x < y] of its elements;
    [insert_sorted] puts [x] in front of the first element that is not
    below it, and the elements are inserted from the last to the first. *)
Section Sorted.
Context {A : Type} (ltb : A -> A -> bool).

Fixpoint insert_sorted (x : A) (l : list A) : list A :=
  match l with
  | [] => [x]
  | y :: l' => if ltb y x then y :: insert_sorted x l' else x :: l
  end.

Definition sorted (l : list A) : list A := foldr insert_sorted [] l.
End Sorted.

(** ** Paths

    A [Path] is identified with [str(path)].  Paths are ordered as
    [pathlib] orders them (since Python 3.12): by the list of the
    components of [str(path)] between the separators, compared as
    strings. *)

Abbreviation Path := (list N) (only parsing).

(** [s.split(sep)] for a one-character separator. *)
Fixpoint split_go (sep : char) (cur : str) (s : str) : list str :=
  match s with
  | [] => [rev cur]
  | c :: s' => if (c =? sep)%N then rev cur :: split_go sep [] s'
               else split_go sep (c :: cur) s'
  end.

Definition split (sep : char) (s : str) : list str := split_go sep [] s.

Definition path_parts (p : Path) : list str := split 47%N p.

Definition path_compare (p q : Path) : comparison :=
  list_compare str_compare (path_parts p) (path_parts q).

Definition path_ltb (p q : Path) : bool :=
  match path_compare p q with Lt => true | _ => false end.

(** [p <= q] for paths. *)
Definition path_le (p q : Path) : Prop := path_compare p q ≠ Gt.

(** ** Structural Walker *)

(** The values the walker meets in a syntax tree.  An [Ast] node has a
    [kind], a [site] and a tuple of [args]; a [Site] has a [lineno];
    tuples and lists are both [Tuple]. *)
Inductive node : Type :=
| PyNone
| PyStr (s : str)
| Site (lineno : Z)
| Tuple (items : list node)
| Ast (kind : str) (site : node) (args : list node).

(** The tuples [(first_line, last_line, name, ignored)] that
    [traverse_ast] yields. *)
Record location : Type := Location {
  first_line : Z;
  last_line : Z;
  name : str;
  ignored : bool
}.

(** Tuples compare lexicographically, [False < True]. *)
Definition location_compare (a b : location) : comparison :=
  match first_line a ?= first_line b with
  | Eq => match last_line a ?= last_line b with
          | Eq => match str_compare (name a) (name b) with
                  | Eq => Bool.compare (ignored a) (ignored b)
                  | o => o
                  end
          | o => o
          end
  | o => o
  end.

Definition location_ltb (a b : location) : bool :=
  match location_compare a b with Lt => true | _ => false end.

(** [x.lineno], an [AttributeError] for anything but a site. *)
Definition lineno (x : node) : option Z :=
  match x with Site l => Some l | _ => None end.

(** Method names are strings in the trees of the front end. *)
Definition as_str (x : node) : option str :=
  match x with PyStr s => Some s | _ => None end.

Definition no_span_kinds : list str :=
  map lit [ "constant"; "dml_typedef"; "extern"; "extern_typedef";
            "loggroup"; "struct"; "import"; "header"; "footer"; "is";
            "typedparam"; "parameter"; "saved"; "session";
            "sharedhook"; "hook"; "error"; "export" ]%string.

Definition template_kinds : list str :=
  map lit [ "template"; "template_dml12"; "in_each" ]%string.

Definition kind_is (k : str) (s : string) : bool := bool_decide (k = lit s).
Definition kind_in (k : str) (ks : list str) : bool := bool_decide (k ∈ ks).

(** [for (_, _, _, typ) in inp: if typ is None: ignored = True] *)
Fixpoint any_untyped (inp : list node) : option bool :=
  match inp with
  | [] => Some false
  | Tuple [_; _; _; typ] :: inp' =>
      b ← any_untyped inp';
      Some (match typ with PyNone => true | _ => b end)
  | _ :: _ => None
  end.

(** [any(stmt.kind == 'error' for stmt in stmts)], which stops at the
    first statement of kind [error]. *)
Fixpoint any_error (stmts : list node) : option bool :=
  match stmts with
  | [] => Some false
  | Ast k _ _ :: stmts' => if kind_is k "error" then Some true else any_error stmts'
  | _ :: _ => None
  end.

(** [body.kind == 'compound'], for the two [assert]s. *)
Definition is_compound (body : node) : option bool :=
  match body with
  | Ast k _ _ => Some (kind_is k "compound")
  | _ => None
  end.

(** [traverse_ast(ast)], as the list the generator yields; [None] when a
    tuple does not unpack, an attribute is missing or an [assert] fails. *)
Fixpoint traverse_ast (ast : node) : option (list location) :=
  let all := fix all (stmts : list node) : option (list location) :=
    match stmts with
    | [] => Some []
    | stmt :: stmts' =>
        l ← traverse_ast stmt; ls ← all stmts'; Some (l ++ ls)
    end in
  match ast with
  | Ast kind site args =>
      if kind_in kind no_span_kinds then Some []
      else if kind_is kind "dml" then
        match args with
        | [_; Tuple stmts] => all stmts
        | _ => None
        end
      else if kind_is kind "object" then
        match args with
        | [_; _; _; Tuple stmts] => all stmts
        | _ => None
        end
      else if kind_is kind "method" then
        match args with
        | name :: Tuple [Tuple inp; _; _; _; body] :: _ :: _ :: rbrace :: _ =>
            untyped ← any_untyped inp;
            compound ← is_compound body;
            if (compound : bool) then
              match body with
              | Ast _ _ (Tuple stmts :: _) =>
                  poisoned ← any_error stmts;
                  first ← lineno site;
                  last ← lineno rbrace;
                  n ← as_str name;
                  Some [Location first last n (untyped || poisoned)]
              | _ => None
              end
            else None
        | _ => None
        end
      else if kind_is kind "sharedmethod" then
        match args with
        | name :: _ :: _ :: _ :: _ :: _ :: body :: rest =>
            match body with
            | PyNone => Some []
            | _ =>
                compound ← is_compound body;
                if (compound : bool) then
                  match rest with
                  | rbrace :: _ =>
                      first ← lineno site;
                      last ← lineno rbrace;
                      n ← as_str name;
                      Some [Location first last n false]
                  | [] => None
                  end
                else None
            end
        | _ => None
        end
      else if kind_is kind "toplevel_if" || kind_is kind "hashif" then
        match args with
        | [_; Tuple t; Tuple f] =>
            lt ← all t; lf ← all f; Some (lt ++ lf)
        | _ => None
        end
      else if kind_in kind template_kinds then
        match args with
        | [_; Tuple body] => all body
        | _ => None
        end
      else None
  | _ => None
  end.

(** ** The environment

    What the module takes from [pathlib] and from the DML front end
    ([dml.toplevel]).  Reading or parsing a file may raise. *)
Record filesystem : Type := Filesystem {
  read_text : Path -> option str;          (* [path.read_text()] *)
  parent : Path -> Path;                   (* [path.parent] *)
  joinpath : Path -> str -> Path;          (* [path / s] *)
  resolve : Path -> Path                   (* [path.resolve()] *)
}.

Record frontend : Type := Frontend {
  determine_version : str -> Path -> option (Z * Z);
  parse_file : Path -> option node
}.

(** ** Loops and dictionaries *)

(** A [for] loop over [l] whose body updates a state and may raise. *)
Fixpoint for_each {A S : Type} (body : S -> A -> option S) (s : S) (l : list A)
  : option S :=
  match l with
  | [] => Some s
  | x :: l' => s' ← body s x; for_each body s' l'
  end.

(** An insertion-ordered [dict] whose items are iterated: the list of its
    items, in insertion order. *)
Section Dict.
Context {K V : Type} `{EqDecision K}.

(** [d.setdefault(k, default)] followed by the update [f] of that value
    in place: an existing key keeps its position, a new one goes last. *)
Fixpoint dict_upsert (k : K) (default : V) (f : V -> V) (d : list (K * V))
  : list (K * V) :=
  match d with
  | [] => [(k, f default)]
  | (k', v) :: d' =>
      if decide (k' = k) then (k', f v) :: d'
      else (k', v) :: dict_upsert k default f d'
  end.

Definition dict_get (k : K) (d : list (K * V)) : option V :=
  snd <$> head (filter (fun kv => fst kv = k) d).

Definition dict_keys (d : list (K * V)) : list K := map fst d.
End Dict.

(** ** Method locations *)

Section Correlator.
Context (fs : filesystem) (fe : frontend).

(** [method_locations(path)].  The calls that silence the warnings of
    the front end have no effect on the result and are left out. *)
Definition method_locations (path : Path) : option (list location) :=
  text ← read_text fs path;
  version ← determine_version fe text path;
  ast ← parse_file fe path;
  locs ← traverse_ast ast;
  if bool_decide (version = (1, 2)) then
    Some (map (fun l => Location (first_line l) (last_line l) (name l) true) locs)
  else Some locs.

(** ** Marker Scanner *)

(** [line_directive_re], compiled with [re.M]: [^], any number of
    spaces, [#line] and a space, group 1 [[0-9]+], a space, a double
    quote, group 2 [.*], a double quote, [$]. *)
Definition line_directive_re : regex :=
  Seq [ Bol; Star (Chr 32); Lit (lit "#line ");
        Group 1 (Plus (Range 48 57)); Chr 32;
        Chr 34; Group 2 (Star Dot); Chr 34; Eol ].

(** The first inner loop: [linemarks_by_pathstr] for one C file. *)
Definition record_match (by_pathstr : list (str * list Z)) (m : cursor)
  : option (list (str * list Z)) :=
  line_str ← group 1 m;
  dml_file ← group 2 m;
  n ← int line_str;
  Some (dict_upsert dml_file [] (fun l => l ++ [n]) by_pathstr).

Definition linemarks_by_pathstr (text : str) : option (list (str * list Z)) :=
  for_each record_match [] (finditer line_directive_re text).

(** The second inner loop: normalize the file names and merge the line
    lists into [linemarks_by_path]. *)
Definition merge_linemarks (c_file : Path)
    (by_path : list (Path * gset Z)) (item : str * list Z)
  : list (Path * gset Z) :=
  let abs_path := resolve fs (joinpath fs (parent fs c_file) (fst item)) in
  if bool_decide (abs_path ≠ c_file)
  then dict_upsert abs_path ∅ (fun s => s ∪ list_to_set (snd item)) by_path
  else by_path.

Definition scan_c_file (by_path : list (Path * gset Z)) (c_file : Path)
  : option (list (Path * gset Z)) :=
  text ← read_text fs c_file;
  by_pathstr ← linemarks_by_pathstr text;
  Some (foldl (merge_linemarks c_file) by_path by_pathstr).

Definition linemarks_by_path (c_files : list Path)
  : option (list (Path * gset Z)) :=
  for_each scan_c_file [] (sorted path_ltb c_files).

(** ** Dead-Method Correlator *)

(** [sorted(linemarks) + [math.inf]] *)
Definition sorted_linemarks (linemarks : gset Z) : list mark :=
  map Line (sorted Z.ltb (elements linemarks)) ++ [Inf].

(** [while linemarks[i] <= last_line: i += 1].  The pointer [i] is kept
    as the list [linemarks[i:]] of the marks not yet consumed; reading
    [linemarks[i]] past the end is an [IndexError]. *)
Fixpoint advance (unconsumed : list mark) (last : Z) : option (list mark) :=
  match unconsumed with
  | [] => None
  | m :: unconsumed' =>
      if mark_le m last then advance unconsumed' last else Some unconsumed
  end.

(** The body of the loop over [sorted(method_locations(dml_file))]:
    [dead.setdefault(dml_file, []).append((first_line, name))] when the
    mark under the pointer is beyond [last_line] and the method is not
    ignored, then the [while] loop. *)
Definition sweep_step (dml_file : Path)
    (st : list mark * gmap Path (list (Z * str))) (loc : location)
  : option (list mark * gmap Path (list (Z * str))) :=
  let '(unconsumed, dead) := st in
  m ← head unconsumed;
  let dead' :=
    if mark_gt m (last_line loc) && negb (ignored loc)
    then <[dml_file := default [] (dead !! dml_file)
                       ++ [(first_line loc, name loc)]]> dead
    else dead in
  unconsumed' ← advance unconsumed (last_line loc);
  Some (unconsumed', dead').

(** The body of the loop over [linemarks_by_path.items()]. *)
Definition correlate (dml_files : list Path)
    (st : gmap Path (list (Z * str)) * list Path) (item : Path * gset Z)
  : option (gmap Path (list (Z * str)) * list Path) :=
  let '(dead, skipped) := st in
  let '(dml_file, linemarks) := item in
  if bool_decide (dml_file ∈ dml_files) then
    locs ← method_locations dml_file;
    st' ← for_each (sweep_step dml_file) (sorted_linemarks linemarks, dead)
                   (sorted location_ltb locs);
    Some (snd st', skipped)
  else Some (dead, skipped ++ [dml_file]).

(** The body of the loop over [dml_files.difference(linemarks_by_path)]. *)
Definition all_dead (dead : gmap Path (list (Z * str))) (path : Path)
  : option (gmap Path (list (Z * str))) :=
  locs ← method_locations path;
  Some (<[path := map (fun l => (first_line l, name l))
                      (filter (fun l => ignored l = false) locs)]> dead).

(** [find_dead_methods(c_files, dml_files)].  The two sets are given by
    the lists of their elements, in the order in which Python iterates
    them. *)
Definition find_dead_methods (c_files dml_files : list Path)
  : option (gmap Path (list (Z * str)) * list Path) :=
  by_path ← linemarks_by_path c_files;
  '(dead, skipped) ← for_each (correlate dml_files) (∅, []) by_path;
  dead' ← for_each all_dead dead
            (filter (fun p => p ∉ dict_keys by_path) dml_files);
  Some (dead', skipped).
End Correlator.

(** ** The report of one file

    What the sweep appends for one file, as a function of the marks under
    the pointer and of the sorted locations ([report]), and what that
    does to [dead] ([add_report]).  The sweep itself is [sweep_step];
    [sweep_report] below relates the two. *)
Fixpoint report (unconsumed : list mark) (locs : list location)
  : option (list (Z * str)) :=
  match locs with
  | [] => Some []
  | loc :: locs' =>
      m ← head unconsumed;
      unconsumed' ← advance unconsumed (last_line loc);
      r ← report unconsumed' locs';
      Some (if mark_gt m (last_line loc) && negb (ignored loc)
            then (first_line loc, name loc) :: r
            else r)
  end.

Definition add_report (f : Path) (r : list (Z * str))
    (dead : gmap Path (list (Z * str))) : gmap Path (list (Z * str)) :=
  match r with
  | [] => dead
  | _ :: _ => <[f := default [] (dead !! f) ++ r]> dead
  end.

(** The report of a file without any mark. *)
Definition unmarked_report (locs : list location) : list (Z * str) :=
  map (fun l => (first_line l, name l)) (filter (fun l => ignored l = false) locs).

(** ** The directives of a text

    The file name and the line number of every match of
    [line_directive_re] in a text, in the order of the text. *)
Definition directive_of (m : cursor) : option (str * Z) :=
  line_str ← group 1 m;
  dml_file ← group 2 m;
  n ← int line_str;
  Some (dml_file, n).

Definition directives (text : str) : list (str * Z) :=
  omap directive_of (finditer line_directive_re text).

(** The path a directive of the C file [c_file] points to. *)
Definition target (fs : filesystem) (c_file : Path) (dml_file : str) : Path :=
  resolve fs (joinpath fs (parent fs c_file) dml_file).

(** ** The source files of a C file *)

Section Sources.
Context (fs : filesystem).

(** [Path(s)] and [p.is_absolute()], which belong to [pathlib]. *)
Context (Path_of_str : str -> Path) (is_absolute : Path -> bool).

(** [dml_sources(c_file)], as the list of the paths the generator yields;
    [None] when the file cannot be read, has no header, or when the
    [assert] fails on one of the paths. *)
Definition yield_absolute (yielded : list Path) (s : str) : option (list Path) :=
  let p := Path_of_str s in
  if is_absolute p then Some (yielded ++ [p]) else None.

Definition dml_sources (c_file : Path) : option (list Path) :=
  body ← read_text fs c_file;
  sources ← dml_sources_from_body body;
  for_each yield_absolute [] sources.
End Sources.

(** ** What the sweep decides

    The sweep consumes the marks up to the largest last line met so far;
    [bound] is that line, [None] before the first location.  A location
    is dead for the sweep when it is not ignored and no mark beyond the
    bound is at or before its last line ([dead_by_sweep]); it is dead in
    the sense of the module docstring when it is not ignored and no mark
    points into its span ([dead_by_span]). *)
Definition beyond (bound : option Z) (m : Z) : Prop :=
  match bound with
  | None => True
  | Some b => b < m
  end.

Definition raise_bound (bound : option Z) (last : Z) : option Z :=
  Some (match bound with None => last | Some b => Z.max b last end).

Definition dead_by_sweep (X : gset Z) (bound : option Z) (loc : location) : Prop :=
  ignored loc = false
  /\ set_Forall (fun m => beyond bound m -> last_line loc < m) X.

Definition dead_by_span (X : gset Z) (loc : location) : Prop :=
  ignored loc = false
  /\ set_Forall (fun m => ~ (first_line loc <= m <= last_line loc)) X.

#[global] Instance beyond_dec bound m : Decision (beyond bound m).
Proof. destruct bound; simpl; apply _. Defined.

#[global] Instance dead_by_sweep_dec X bound loc : Decision (dead_by_sweep X bound loc).
Proof. unfold dead_by_sweep. apply _. Defined.

#[global] Instance dead_by_span_dec X loc : Decision (dead_by_span X loc).
Proof. unfold dead_by_span. apply _. Defined.

Fixpoint sweep_rule (X : gset Z) (bound : option Z) (locs : list location)
  : list (Z * str) :=
  match locs with
  | [] => []
  | loc :: locs' =>
      (if decide (dead_by_sweep X bound loc)
       then [(first_line loc, name loc)] else [])
      ++ sweep_rule X (raise_bound bound (last_line loc)) locs'
  end.

Definition span_report (X : gset Z) (locs : list location) : list (Z * str) :=
  map (fun l => (first_line l, name l)) (filter (dead_by_span X) locs).

(** No location reaches the first line of a later one. *)
Definition no_overlap (locs : list location) : Prop :=
  StronglySorted (fun a b => last_line a < first_line b) locs.

#[global] Instance location_eq_dec : EqDecision location.
Proof. solve_decision. Defined.

(** The locations are distinct non-empty spans, no two of which share a
    line. *)
Definition apart (a b : location) : Prop :=
  a ≠ b -> last_line a < first_line b \/ last_line b < first_line a.

Definition separated (locs : list location) : Prop :=
  NoDup locs
  /\ Forall (fun l => first_line l <= last_line l) locs
  /\ Forall (fun a => Forall (apart a) locs) locs.

(** Every mark points into some location. *)
Definition covered (X : gset Z) (locs : list location) : Prop :=
  set_Forall (fun m => Exists (fun loc => first_line loc <= m <= last_line loc)
                              locs) X.

(** The entry of [dead] that the sweep leaves for a report: none for an
    empty one. *)
Definition entry_of (r : list (Z * str)) : option (list (Z * str)) :=
  match r with
  | [] => None
  | _ :: _ => Some r
  end.

(** ** Method nodes

    A formal parameter [(_, _, _, typ)] and a statement node, given by
    their components, to state how [traverse_ast] reads a method. *)
Definition formal (q : node * node * node * node) : node :=
  let '(a, b, c, typ) := q in Tuple [a; b; c; typ].

Definition statement (s : list N * node * list node) : node :=
  let '(kind, site, args) := s in Ast kind site args.

Definition untyped (q : node * node * node * node) : bool :=
  match snd q with PyNone => true | _ => false end.

Definition error_statement (s : list N * node * list node) : bool :=
  kind_is (fst (fst s)) "error".

(** The statements that a node of a kind with nested statements holds:
    those of a [dml], [object] or template node, and those of both
    branches of a conditional. *)
Definition statements_of (x : node) : option (list node) :=
  match x with
  | Ast kind _ [_; Tuple stmts] =>
      if kind_is kind "dml" || kind_in kind template_kinds
      then Some stmts else None
  | Ast kind _ [_; Tuple t; Tuple f] =>
      if kind_is kind "toplevel_if" || kind_is kind "hashif"
      then Some (t ++ f) else None
  | Ast kind _ [_; _; _; Tuple stmts] =>
      if kind_is kind "object" then Some stmts else None
  | _ => None
  end.

(** ** The lines of a C text

    A line either holds a directive, given by its indentation, the digits
    of its line number and its file name, or is any other line.  A text
    is its lines joined by LF, as [str.join] does. *)
Inductive c_line : Type :=
| Directive (indent : nat) (digits : list N) (file : list N)
| Other (line : list N).

Definition directive_text (indent : nat) (digits file : list N) : list N :=
  replicate indent 32%N ++ lit "#line " ++ digits ++ [32%N; 34%N] ++ file ++ [34%N].

Definition render (l : c_line) : list N :=
  match l with
  | Directive indent digits file => directive_text indent digits file
  | Other line => line
  end.

Fixpoint join_lines (ls : list (list N)) : list N :=
  match ls with
  | [] => []
  | l :: ls' => match ls' with
                | [] => l
                | _ :: _ => l ++ LF :: join_lines ls'
                end
  end.

(** A directive has a number and a file name without LF; another line has
    no LF and is not the text of a directive. *)
Definition c_line_ok (l : c_line) : Prop :=
  match l with
  | Directive _ digits file =>
      digits ≠ [] /\ Forall is_digit digits /\ Forall (fun y => y ≠ LF) file
  | Other line =>
      Forall (fun y => y ≠ LF) line
      /\ forall indent digits file,
           digits ≠ [] -> Forall is_digit digits ->
           line ≠ directive_text indent digits file
  end.

Definition directive_of_line (l : c_line) : option (list N * Z) :=
  match l with
  | Directive _ digits file => n ← int digits; Some (file, n)
  | Other _ => None
  end.

(** ** A sample build

    A small file system and front end on which the definitions can be
    run: paths are handled lexically, relative to a working directory,
    and the front end is a table of versions and syntax trees. *)
Module Sample.
Definition is_absolute (s : str) : bool :=
  match s with 47%N :: _ => true | _ => false end.

Definition join_parts (parts : list str) : str :=
  match parts with
  | [] => []
  | p :: ps => p ++ concat (map (fun q => 47%N :: q) ps)
  end.

Definition posix_parent (p : Path) : Path :=
  match removelast (path_parts p) with
  | [] => lit "."
  | [[]] => lit "/"
  | parts => join_parts parts
  end.

Definition posix_join (d : Path) (s : str) : Path :=
  if is_absolute s then s
  else if bool_decide (d = lit ".") then s
  else d ++ 47%N :: s.

Definition posix_fs (cwd : Path) (files : list (Path * str)) : filesystem :=
  {| read_text := fun p => dict_get p files;
     parent := posix_parent;
     joinpath := posix_join;
     resolve := fun p => if is_absolute p then p else cwd ++ 47%N :: p |}.

Definition table_frontend (sources : list (Path * (Z * Z * node))) : frontend :=
  {| determine_version := fun _ p => fst <$> dict_get p sources;
     parse_file := fun p => snd <$> dict_get p sources |}.

(** One line of C text holding a [#line] directive. *)
Definition directive (indent : nat) (line file : string) : str :=
  replicate indent 32%N ++ lit "#line " ++ lit line ++ lit " "
  ++ 34%N :: lit file ++ [34%N; LF].

(** A [method] node: [inp] are the types of the input parameters,
    [stmts] the statements of the body. *)
Definition param (typ : node) : node := Tuple [PyNone; PyNone; PyNone; typ].
Definition stmt (kind : string) : node := Ast (lit kind) PyNone [].
Definition method (first last : Z) (n : string) (inp stmts : list node) : node :=
  Ast (lit "method") (Site first)
      [ PyStr (lit n);
        Tuple [Tuple (map param inp); Tuple []; PyNone; PyNone;
               Ast (lit "compound") (Site first) [Tuple stmts]];
        PyNone; PyNone; Site last ].
Definition dml (stmts : list node) : node :=
  Ast (lit "dml") PyNone [PyNone; Tuple stmts].
Definition uint32 : node := PyStr (lit "uint32").

(** A C file with directives into three DML files and into itself. *)
Definition dev_c : str :=
  lit "static int f(void) {
" ++ directive 0 "3" "/src/dev.dml"
    ++ directive 4 "7" "/src/dev.dml"
    ++ directive 0 "7" "/src/dev.dml"
    ++ directive 0 "1" "dev-dml.c"
    ++ directive 0 "12" "/src/old.dml"
    ++ directive 0 "5" "/lib/util.dml"
    ++ lit "}".

Definition fs : filesystem :=
  posix_fs (lit "/w")
    [ (lit "/o/dev-dml.c", dev_c);
      (lit "/o/aux-dml.c", directive 0 "15" "/src/dev.dml");
      (lit "/src/dev.dml", lit "dml 1.4;");
      (lit "/src/old.dml", lit "dml 1.2;");
      (lit "/src/none.dml", lit "dml 1.4;");
      (lit "/src/stubs.dml", lit "dml 1.4;") ].

Definition fe : frontend :=
  table_frontend
    [ (lit "/src/dev.dml",
       (1, 4, dml [ method 1 5 "a" [] []; method 6 10 "b" [] [];
                    method 11 20 "c" [] [] ]));
      (lit "/src/old.dml",
       (1, 2, dml [ method 1 5 "m" [] []; method 10 20 "n" [] [] ]));
      (lit "/src/none.dml",
       (1, 4, dml [ method 1 3 "p" [uint32] [stmt "return"];
                    method 5 9 "q" [PyNone] [];
                    method 10 12 "r" [] [stmt "error"] ]));
      (lit "/src/stubs.dml",
       (1, 4, dml [ method 2 4 "s" [] [stmt "error"] ])) ].

Definition c_files : list Path := [lit "/o/dev-dml.c"].
Definition dml_files : list Path :=
  [lit "/src/dev.dml"; lit "/src/old.dml"; lit "/src/none.dml";
   lit "/src/stubs.dml"].

(** What the scan and the analysis give on these files. *)
Definition by_path : list (Path * gset Z) :=
  [ (lit "/src/dev.dml", {[3; 7]});
    (lit "/src/old.dml", {[12]});
    (lit "/lib/util.dml", {[5]}) ].

Definition dead : gmap Path (list (Z * str)) :=
  <[lit "/src/dev.dml" := [(11, lit "c")]]>
    (<[lit "/src/none.dml" := [(1, lit "p")]]>
       (<[lit "/src/stubs.dml" := []]> ∅)).

Definition skipped : list Path := [lit "/lib/util.dml"].
End Sample.

(** A build whose only directive points in front of the only method. *)
Module Gap.
Definition fs : filesystem :=
  Sample.posix_fs (lit "/w")
    [ (lit "/o/gap-dml.c", Sample.directive 0 "5" "/src/gap.dml");
      (lit "/src/gap.dml", lit "dml 1.4;") ].

Definition fe : frontend :=
  Sample.table_frontend
    [ (lit "/src/gap.dml", (1, 4, Sample.dml [Sample.method 10 20 "a" [] []])) ].
End Gap.

(** A build run from the directory of its C file, which is named by a
    relative path and holds a directive into itself. *)
Module Relative.
Definition fs : filesystem :=
  Sample.posix_fs (lit "/w")
    [ (lit "dev-dml.c", Sample.directive 0 "4711" "dev-dml.c") ].

Definition fe : frontend := Sample.table_frontend [].
End Relative.

(** A build whose front end yields the methods of a file out of order;
    the C file marks the second and the last of them. *)
Module Wide.
Definition fs : filesystem :=
  Sample.posix_fs (lit "/w")
    [ (lit "/o/wide-dml.c",
       Sample.directive 0 "12" "/src/wide.dml"
       ++ Sample.directive 2 "31" "/src/wide.dml");
      (lit "/src/wide.dml", lit "dml 1.4;") ].

Definition locs : list location :=
  [ Location 30 35 (lit "z") false; Location 1 5 (lit "a") false;
    Location 10 15 (lit "b") false; Location 20 25 (lit "c") false ].

Definition fe : frontend :=
  Sample.table_frontend
    [ (lit "/src/wide.dml",
       (1, 4, Sample.dml [ Sample.method 30 35 "z" [] [];
                           Sample.method 1 5 "a" [] [];
                           Sample.method 10 15 "b" [] [];
                           Sample.method 20 25 "c" [] [] ])) ].

Definition c_files : list Path := [lit "/o/wide-dml.c"].
Definition dml_files : list Path := [lit "/src/wide.dml"].

Definition by_path : list (Path * gset Z) := [ (lit "/src/wide.dml", {[12; 31]}) ].

Definition dead : gmap Path (list (Z * str)) :=
  <[lit "/src/wide.dml" := [(1, lit "a"); (20, lit "c")]]> ∅.
End Wide.

(** A build whose DML file is named by a relative path, while the
    directive of the C file names it by its absolute path. *)
Module Unresolved.
Definition fs : filesystem :=
  Sample.posix_fs (lit "/w")
    [ (lit "/w/o/dev-dml.c", Sample.directive 0 "3" "/w/dev.dml");
      (lit "dev.dml", lit "dml 1.4;") ].

Definition fe : frontend :=
  Sample.table_frontend
    [ (lit "dev.dml", (1, 4, Sample.dml [Sample.method 1 5 "a" [] []])) ].

Definition c_files : list Path := [lit "/w/o/dev-dml.c"].
Definition dml_files : list Path := [lit "dev.dml"].

Definition dead : gmap Path (list (Z * str)) :=
  <[lit "dev.dml" := [(1, lit "a")]]> ∅.

Definition skipped : list Path := [lit "/w/dev.dml"].
End Unresolved.

(** * Properties *)

(** ** Loops *)

Lemma for_each_invariant {A S : Type} (body : S -> A -> option S)
    (P : S -> Prop) l :
  (forall s x s', x ∈ l -> P s -> body s x = Some s' -> P s') ->
  forall s s', P s -> for_each body s l = Some s' -> P s'.
Proof.
  induction l as [|x l IH]; intros Hbody s s' Hs Hrun; simpl in Hrun.
  - by simplify_eq.
  - destruct (body s x) as [s1|] eqn:Hx; simpl in Hrun; [|done].
    eapply IH; [| |exact Hrun].
    + intros ? ? ? ?. apply Hbody. by right.
    + eapply Hbody; [by left|exact Hs|exact Hx].
Qed.

(** ** Ordered dictionaries *)

Section DictFacts.
Context {K V : Type} `{EqDecision K}.
Implicit Types (d : list (K * V)) (k : K) (f : V -> V).

Lemma dict_keys_upsert k v0 f d :
  dict_keys (dict_upsert k v0 f d)
  = if decide (k ∈ dict_keys d) then dict_keys d else dict_keys d ++ [k].
Proof.
  unfold dict_keys. induction d as [|[k' v] d IH].
  - destruct (decide (k ∈ map fst [])) as [Hin|_]; [|done].
    by apply elem_of_nil in Hin.
  - cbn [dict_upsert]. destruct (decide (k' = k)) as [->|Hne].
    + rewrite decide_True; [done | by left].
    + cbn [map fst]. rewrite IH.
      destruct (decide (k ∈ map fst d)) as [Hin|Hin].
      * rewrite decide_True; [done | by right].
      * rewrite decide_False; [done|].
        intros [?|?]%elem_of_cons; congruence.
Qed.

Lemma dict_keys_upsert_NoDup k v0 f d :
  NoDup (dict_keys d) -> NoDup (dict_keys (dict_upsert k v0 f d)).
Proof.
  intros Hd. rewrite dict_keys_upsert. case_decide as Hin; [done|].
  apply NoDup_app. split_and!; [done | | apply NoDup_singleton].
  intros x Hx ->%list_elem_of_singleton. done.
Qed.
End DictFacts.

(** ** The correlator, loop by loop *)

Lemma add_report_lookup f r dead :
  add_report f r dead !! f
  = match r with [] => dead !! f | _ :: _ => Some (default [] (dead !! f) ++ r) end.
Proof. destruct r; simpl; [done | by rewrite lookup_insert_eq]. Qed.

Lemma add_report_lookup_ne f g r dead :
  f ≠ g -> add_report f r dead !! g = dead !! g.
Proof. intros Hne. destruct r; simpl; [done | by rewrite lookup_insert_ne]. Qed.

Lemma add_report_cons f x r dead :
  add_report f r (<[f := default [] (dead !! f) ++ [x]]> dead)
  = add_report f (x :: r) dead.
Proof.
  destruct r as [|y r]; simpl; [done|].
  rewrite lookup_insert_eq, insert_insert_eq. simpl.
  by rewrite <- app_assoc.
Qed.

(** The sweep over one file adds [report] to [dead]. *)
Lemma sweep_report f locs :
  forall unconsumed dead,
    snd <$> for_each (sweep_step f) (unconsumed, dead) locs
    = (fun r => add_report f r dead) <$> report unconsumed locs.
Proof.
  induction locs as [|loc locs IH]; intros u dead; [done|].
  cbn [for_each report].
  replace (sweep_step f (u, dead) loc) with
    (m ← head u;
     unconsumed' ← advance u (last_line loc);
     Some (unconsumed',
           if mark_gt m (last_line loc) && negb (ignored loc)
           then <[f := default [] (dead !! f) ++ [(first_line loc, name loc)]]> dead
           else dead)) by reflexivity.
  destruct (head u) as [m|]; [|reflexivity]. cbn [mbind option_bind].
  destruct (advance u (last_line loc)) as [u'|]; [|reflexivity].
  cbn [mbind option_bind].
  rewrite IH. destruct (report u' locs) as [r|]; [|reflexivity].
  cbn [fmap option_fmap option_map mbind option_bind].
  f_equal. destruct (mark_gt m (last_line loc) && negb (ignored loc)); [|done].
  apply add_report_cons.
Qed.

Section CorrelatorFacts.
Context (fs : filesystem) (fe : frontend).

Lemma merge_linemarks_NoDup c_file by_path item :
  NoDup (dict_keys by_path) ->
  NoDup (dict_keys (merge_linemarks fs c_file by_path item)).
Proof.
  unfold merge_linemarks. case_bool_decide; auto using dict_keys_upsert_NoDup.
Qed.

Lemma foldl_merge_linemarks_NoDup c_file items :
  forall by_path,
    NoDup (dict_keys by_path) ->
    NoDup (dict_keys (foldl (merge_linemarks fs c_file) by_path items)).
Proof.
  induction items as [|item items IH]; intros by_path Hd; simpl; [done|].
  by apply IH, merge_linemarks_NoDup.
Qed.

(** The keys of [linemarks_by_path] are distinct: it is a dictionary. *)
Lemma linemarks_by_path_NoDup c_files by_path :
  linemarks_by_path fs c_files = Some by_path -> NoDup (dict_keys by_path).
Proof.
  unfold linemarks_by_path.
  apply (for_each_invariant _ (fun d => NoDup (dict_keys d))); [|constructor].
  intros d c d' _ Hd Hscan. unfold scan_c_file in Hscan.
  destruct (read_text fs c) as [text|]; [|done]. simpl in Hscan.
  destruct (linemarks_by_pathstr text) as [items|]; [|done]. simpl in Hscan.
  simplify_eq. by apply foldl_merge_linemarks_NoDup.
Qed.

(** The loop over [linemarks_by_path.items()]. *)
Lemma correlate_loop dml_files items :
  forall dead0 skipped0 dead skipped,
    NoDup (dict_keys items) ->
    for_each (correlate fs fe dml_files) (dead0, skipped0) items
    = Some (dead, skipped) ->
    skipped = skipped0 ++ filter (fun p => p ∉ dml_files) (dict_keys items)
    /\ (forall f, f ∉ dict_keys items \/ f ∉ dml_files ->
                  dead !! f = dead0 !! f)
    /\ (forall f X, (f, X) ∈ items -> f ∈ dml_files ->
          exists locs r,
            method_locations fs fe f = Some locs
            /\ report (sorted_linemarks X) (sorted location_ltb locs) = Some r
            /\ dead !! f = add_report f r dead0 !! f).
Proof.
  induction items as [|[g X] items IH]; intros dead0 skipped0 dead skipped Hnd Hrun.
  - simpl in Hrun. simplify_eq. split_and!.
    + by rewrite app_nil_r.
    + done.
    + intros f X Hin. by apply elem_of_nil in Hin.
  - unfold dict_keys in *. cbn [map fst] in *.
    apply NoDup_cons in Hnd as [Hg Hnd].
    cbn [for_each] in Hrun.
    destruct (correlate fs fe dml_files (dead0, skipped0) (g, X))
      as [[dead1 skipped1]|] eqn:Hstep; [|done].
    cbn [mbind option_bind] in Hrun.
    destruct (IH _ _ _ _ Hnd Hrun) as (Hsk & Hout & Hin).
    unfold correlate in Hstep.
    destruct (decide (g ∈ dml_files)) as [Hscope|Hscope].
    + rewrite bool_decide_eq_true_2 in Hstep by done.
      destruct (method_locations fs fe g) as [locs|] eqn:Hlocs; [|done].
      cbn [mbind option_bind] in Hstep.
      pose proof (sweep_report g (sorted location_ltb locs)
                    (sorted_linemarks X) dead0) as Hsweep.
      destruct (for_each (sweep_step g) (sorted_linemarks X, dead0)
                  (sorted location_ltb locs)) as [[u1 d1]|]; [|done].
      cbn [mbind option_bind snd] in Hstep. simplify_eq.
      destruct (report (sorted_linemarks X) (sorted location_ltb locs))
        as [r|] eqn:Hr; [|done].
      cbn in Hsweep. simplify_eq.
      split_and!.
      * rewrite filter_cons_False by tauto. done.
      * intros f [Hf|Hf].
        -- apply not_elem_of_cons in Hf as [Hne Hf].
           rewrite Hout by tauto. by apply add_report_lookup_ne.
        -- assert (f ≠ g) by congruence.
           rewrite Hout by tauto. by apply add_report_lookup_ne.
      * intros f X' [Heq|Hrest]%elem_of_cons Hf.
        -- simplify_eq. exists locs, r. split_and!; [done..|].
           apply Hout. by left.
        -- destruct (Hin f X' Hrest Hf) as (locs' & r' & ? & ? & Hd).
           exists locs', r'. split_and!; [done..|].
           assert (f ≠ g).
           { intros ->. apply Hg. apply list_elem_of_fmap.
             by exists (g, X'). }
           rewrite Hd, !add_report_lookup.
           by rewrite add_report_lookup_ne.
    + rewrite bool_decide_eq_false_2 in Hstep by done. simplify_eq.
      split_and!.
      * rewrite filter_cons_True by done. by rewrite <- app_assoc.
      * intros f Hf. apply Hout.
        destruct Hf as [Hf|Hf]; [|by right].
        apply not_elem_of_cons in Hf as [_ Hf]. by left.
      * intros f X' [Heq|Hrest]%elem_of_cons Hf.
        -- by simplify_eq.
        -- by apply Hin.
Qed.
End CorrelatorFacts.

Section Characterisation.
Context (fs : filesystem) (fe : frontend).

(** The loop over [dml_files.difference(linemarks_by_path)]. *)
Lemma all_dead_loop paths :
  forall dead0 dead,
    for_each (all_dead fs fe) dead0 paths = Some dead ->
    (forall f, f ∉ paths -> dead !! f = dead0 !! f)
    /\ (forall f, f ∈ paths ->
          exists locs, method_locations fs fe f = Some locs
                       /\ dead !! f = Some (unmarked_report locs)).
Proof.
  induction paths as [|p paths IH]; intros dead0 dead Hrun.
  - simpl in Hrun. simplify_eq. split; [done|].
    intros f Hf. by apply elem_of_nil in Hf.
  - cbn [for_each] in Hrun.
    destruct (all_dead fs fe dead0 p) as [dead1|] eqn:Hstep; [|done].
    cbn [mbind option_bind] in Hrun. unfold all_dead in Hstep.
    destruct (method_locations fs fe p) as [locs|] eqn:Hlocs; [|done].
    cbn [mbind option_bind] in Hstep. simplify_eq.
    destruct (IH _ _ Hrun) as [Hout Hin]. split.
    + intros f [Hne Hf]%not_elem_of_cons.
      rewrite Hout by done. by rewrite lookup_insert_ne.
    + intros f Hf. destruct (decide (f ∈ paths)) as [Hrest|Hrest].
      * by apply Hin.
      * apply elem_of_cons in Hf as [->|Hf]; [|done].
        exists locs. split; [done|].
        rewrite Hout by done. by rewrite lookup_insert_eq.
Qed.

(** What [find_dead_methods] returns, file by file. *)
Theorem find_dead_methods_spec c_files dml_files dead skipped :
  find_dead_methods fs fe c_files dml_files = Some (dead, skipped) ->
  exists by_path,
    linemarks_by_path fs c_files = Some by_path
    /\ NoDup (dict_keys by_path)
    /\ skipped = filter (fun p => p ∉ dml_files) (dict_keys by_path)
    /\ (forall f X, (f, X) ∈ by_path -> f ∈ dml_files ->
          exists locs r,
            method_locations fs fe f = Some locs
            /\ report (sorted_linemarks X) (sorted location_ltb locs) = Some r
            /\ dead !! f = match r with [] => None | _ :: _ => Some r end)
    /\ (forall f, f ∈ dml_files -> f ∉ dict_keys by_path ->
          exists locs, method_locations fs fe f = Some locs
                       /\ dead !! f = Some (unmarked_report locs))
    /\ (forall f, f ∉ dml_files -> dead !! f = None).
Proof.
  unfold find_dead_methods. intros Hrun.
  destruct (linemarks_by_path fs c_files) as [by_path|] eqn:Hscan; [|done].
  cbn [mbind option_bind] in Hrun.
  destruct (for_each (correlate fs fe dml_files) (∅, []) by_path)
    as [[dead1 skipped1]|] eqn:Hloop; [|done].
  cbn [mbind option_bind] in Hrun.
  destruct (for_each (all_dead fs fe) dead1
              (filter (fun p => p ∉ dict_keys by_path) dml_files))
    as [dead2|] eqn:Hrest; [|done].
  cbn [mbind option_bind] in Hrun. simplify_eq.
  pose proof (linemarks_by_path_NoDup _ _ _ Hscan) as Hnd.
  destruct (correlate_loop _ _ _ _ _ _ _ _ Hnd Hloop) as (Hsk & Hout & Hin).
  destruct (all_dead_loop _ _ _ Hrest) as [Hkeep Hnew].
  exists by_path. split_and!; [done..| | |].
  - intros f X HfX Hf.
    destruct (Hin f X HfX Hf) as (locs & r & Hlocs & Hr & Hd).
    exists locs, r. split_and!; [done..|].
    rewrite Hkeep.
    + rewrite Hd, add_report_lookup, lookup_empty. by destruct r.
    + intros [Hk _]%list_elem_of_filter. apply Hk.
      apply list_elem_of_fmap. by exists (f, X).
  - intros f Hf Hk. apply Hnew. by apply list_elem_of_filter.
  - intros f Hf. rewrite Hkeep.
    + rewrite Hout by (by right). apply lookup_empty.
    + by intros [_ ?]%list_elem_of_filter.
Qed.
End Characterisation.

(** ** Sorting *)

Section SortedFacts.
Context {A : Type} (ltb : A -> A -> bool).

Lemma insert_sorted_Permutation x l : insert_sorted ltb x l ≡ₚ x :: l.
Proof.
  induction l as [|y l IH]; simpl; [done|].
  destruct (ltb y x); [|done].
  rewrite IH. apply Permutation_swap.
Qed.

Lemma sorted_Permutation l : sorted ltb l ≡ₚ l.
Proof.
  induction l as [|x l IH]; simpl; [done|].
  rewrite insert_sorted_Permutation. by rewrite IH.
Qed.

Lemma elem_of_sorted x l : x ∈ sorted ltb l <-> x ∈ l.
Proof. by rewrite sorted_Permutation. Qed.
End SortedFacts.

(** ** The sweep *)

Lemma dict_get_Some_elem {K V : Type} `{EqDecision K} (k : K) (v : V) d :
  dict_get k d = Some v -> (k, v) ∈ d.
Proof.
  unfold dict_get. induction d as [|[k' v'] d IH]; [done|].
  destruct (decide (k' = k)) as [->|Hne].
  - rewrite filter_cons_True by done. simpl. intros [= ->]. by left.
  - rewrite filter_cons_False by done. intros Hd. right. by apply IH.
Qed.

Lemma elem_of_dict_keys {K V : Type} (k : K) (v : V) (d : list (K * V)) :
  (k, v) ∈ d -> k ∈ dict_keys d.
Proof. intros Hin. apply list_elem_of_fmap. by exists (k, v). Qed.

Lemma dict_keys_elem {K V : Type} (k : K) (d : list (K * V)) :
  k ∈ dict_keys d -> exists v, (k, v) ∈ d.
Proof. intros [[k' v] [-> Hin]]%list_elem_of_fmap. by exists v. Qed.

(** The sentinel stops the [while] loop. *)
Lemma advance_Inf unconsumed last :
  Inf ∈ unconsumed ->
  exists unconsumed', advance unconsumed last = Some unconsumed'
                      /\ Inf ∈ unconsumed'.
Proof.
  induction unconsumed as [|m u IH]; intros Hin; [by apply elem_of_nil in Hin|].
  simpl. destruct (mark_le m last) eqn:Hle.
  - apply IH. apply elem_of_cons in Hin as [<-|Hin]; [done|done].
  - eauto.
Qed.

(** Every entry of a report is the (first line, name) of a location that
    is not ignored. *)
Lemma report_elem locs :
  forall unconsumed r x,
    report unconsumed locs = Some r -> x ∈ r ->
    exists loc, loc ∈ locs /\ ignored loc = false
                /\ x = (first_line loc, name loc).
Proof.
  induction locs as [|loc locs IH]; intros u r x Hr Hx.
  - simpl in Hr. simplify_eq. by apply elem_of_nil in Hx.
  - cbn [report] in Hr.
    destruct (head u) as [m|]; [|done]. cbn [mbind option_bind] in Hr.
    destruct (advance u (last_line loc)) as [u'|]; [|done].
    cbn [mbind option_bind] in Hr.
    destruct (report u' locs) as [r'|] eqn:Hr'; [|done].
    cbn [mbind option_bind] in Hr. simplify_eq.
    assert (x ∈ r' -> exists loc0, loc0 ∈ loc :: locs /\ ignored loc0 = false
                                  /\ x = (first_line loc0, name loc0)) as Hrest.
    { intros Hin. destruct (IH _ _ _ Hr' Hin) as (loc0 & ? & ? & ?).
      exists loc0. split_and!; [by right|done..]. }
    destruct (mark_gt m (last_line loc) && negb (ignored loc)) eqn:Hdead; [|auto].
    apply elem_of_cons in Hx as [->|Hx]; [|auto].
    exists loc. split_and!; [by left| |done].
    apply andb_true_iff in Hdead as [_ Hi]. by destruct (ignored loc).
Qed.

(** With every location ignored the report is empty. *)
Lemma report_all_ignored locs :
  forall unconsumed r,
    Forall (fun loc => ignored loc = true) locs ->
    report unconsumed locs = Some r -> r = [].
Proof.
  intros u r Hall Hr. destruct r as [|x r]; [done|].
  destruct (report_elem _ _ _ x Hr) as (loc & Hin & Hi & _); [by left|].
  rewrite Forall_forall in Hall. specialize (Hall loc Hin). congruence.
Qed.

Lemma unmarked_report_all_ignored locs :
  Forall (fun loc => ignored loc = true) locs -> unmarked_report locs = [].
Proof.
  unfold unmarked_report. induction 1 as [|loc locs Hi _ IH]; [done|].
  rewrite filter_cons_False by congruence. exact IH.
Qed.

Lemma elem_of_unmarked_report x locs :
  x ∈ unmarked_report locs
  <-> exists loc, loc ∈ locs /\ ignored loc = false
                  /\ x = (first_line loc, name loc).
Proof.
  unfold unmarked_report. rewrite list_elem_of_fmap. split.
  - intros (loc & -> & [Hi Hin]%list_elem_of_filter). eauto.
  - intros (loc & Hin & Hi & ->). exists loc. split; [done|].
    by apply list_elem_of_filter.
Qed.

(** In DML 1.2 every location is ignored. *)
Lemma method_locations_dml12 fs fe path text :
  read_text fs path = Some text ->
  determine_version fe text path = Some (1, 2) ->
  method_locations fs fe path
  = map (fun l => Location (first_line l) (last_line l) (name l) true)
      <$> (parse_file fe path ≫= traverse_ast).
Proof.
  intros Htext Hversion. unfold method_locations.
  rewrite Htext. cbn [mbind option_bind]. rewrite Hversion. cbn [mbind option_bind].
  destruct (parse_file fe path) as [ast|]; [|done]. cbn [mbind option_bind].
  destruct (traverse_ast ast) as [locs|]; [|done]. cbn [mbind option_bind].
  by rewrite bool_decide_eq_true_2.
Qed.

Lemma dict_get_elem_NoDup {K V : Type} `{EqDecision K} (k : K) (v : V) d :
  NoDup (dict_keys d) -> (k, v) ∈ d -> dict_get k d = Some v.
Proof.
  unfold dict_get, dict_keys. induction d as [|[k' v'] d IH]; intros Hnd Hin.
  - by apply elem_of_nil in Hin.
  - cbn [map fst] in Hnd. apply NoDup_cons in Hnd as [Hk' Hnd].
    apply elem_of_cons in Hin as [Heq|Hin].
    + simplify_eq. by rewrite filter_cons_True.
    + rewrite filter_cons_False; [by apply IH|].
      simpl. intros ->. apply Hk'. by apply (elem_of_dict_keys _ v).
Qed.

(** ** The matcher on a well-formed header *)

Section Matcher.
Implicit Types (c : cursor) (s t : str).

Lemma run_Cat r1 r2 c : run (Cat r1 r2) c = flat_map (run r2) (run r1 c).
Proof. reflexivity. Qed.

Lemma run_Seq_cons r rs c :
  run (Seq (r :: rs)) c = flat_map (run (Seq rs)) (run r c).
Proof. reflexivity. Qed.

Lemma run_Seq_nil c : run (Seq []) c = [c].
Proof. reflexivity. Qed.

Lemma run_Star r c : run (Star r) c = star_loop (run r) (length (rest c)) c.
Proof. reflexivity. Qed.

Lemma run_Group n r c : run (Group n r) c = map (capture n c) (run r c).
Proof. reflexivity. Qed.

Lemma star_loop_S body fuel c :
  star_loop body (S fuel) c
  = flat_map (fun c' => if (length (rest c') <? length (rest c))%nat
                        then star_loop body fuel c' else [])
             (body c) ++ [c].
Proof. reflexivity. Qed.

Lemma feed_app s t c : feed (s ++ t) c = feed t (feed s c).
Proof. revert c. induction s as [|y s IH]; intros c; simpl; [done|apply IH]. Qed.

Lemma rest_feed s t c : rest c = s ++ t -> rest (feed s c) = t.
Proof.
  revert c. induction s as [|y s IH]; intros c Hc; simpl; [done|].
  apply IH. simpl. by rewrite Hc.
Qed.

Lemma groups_feed s c : groups (feed s c) = groups c.
Proof. revert c. induction s as [|y s IH]; intros c; simpl; [done|by rewrite IH]. Qed.

Lemma run_Chr y t c : rest c = y :: t -> run (Chr y) c = [feed [y] c].
Proof.
  destruct c as [p r g]. simpl. intros ->.
  unfold next_is, step. simpl. by rewrite N.eqb_refl.
Qed.

Lemma run_Chr_other x y t c : rest c = y :: t -> x ≠ y -> run (Chr x) c = [].
Proof.
  destruct c as [p r g]. simpl. intros -> Hne.
  unfold next_is. simpl. by apply N.eqb_neq in Hne as ->.
Qed.

Lemma run_Dot y t c : rest c = y :: t -> y ≠ LF -> run Dot c = [feed [y] c].
Proof.
  destruct c as [p r g]. simpl. intros -> Hne.
  unfold next_is, step. simpl. by apply N.eqb_neq in Hne as ->.
Qed.

Lemma run_Dot_LF t c : rest c = LF :: t -> run Dot c = [].
Proof. destruct c as [p r g]. simpl. by intros ->. Qed.

(** A literal reads itself. *)
Lemma run_Lit s t c : rest c = s ++ t -> run (Lit s) c = [feed s c].
Proof.
  revert c. induction s as [|y s IH]; intros c Hc; [done|].
  change (run (Lit (y :: s)) c) with (flat_map (run (Lit s)) (run (Chr y) c)).
  rewrite (run_Chr y (s ++ t)) by done. simpl. rewrite app_nil_r.
  apply IH. simpl. by rewrite Hc.
Qed.

(** [.*] followed by a LF reads the rest of the line, and only that. *)
Lemma run_dotstar_LF p :
  forall t c fuel,
    Forall (fun y => y ≠ LF) p ->
    rest c = p ++ LF :: t ->
    (length p <= fuel)%nat ->
    flat_map (run (Seq [Chr LF])) (star_loop (run Dot) fuel c)
    = [feed (p ++ [LF]) c].
Proof.
  induction p as [|y p IH]; intros t c fuel Hp Hc Hfuel.
  - assert (star_loop (run Dot) fuel c = [c]) as ->.
    { destruct fuel; [done|]. rewrite star_loop_S. by rewrite (run_Dot_LF t). }
    cbn [flat_map]. rewrite run_Seq_cons, (run_Chr LF t) by done.
    reflexivity.
  - apply Forall_cons in Hp as [Hy Hp].
    destruct fuel as [|fuel]; [simpl in Hfuel; lia|].
    rewrite star_loop_S. rewrite (run_Dot y (p ++ LF :: t)) by done.
    cbn [flat_map]. rewrite app_nil_r.
    assert (rest (feed [y] c) = p ++ LF :: t) as Hc1
      by (by apply rest_feed; rewrite Hc).
    rewrite Hc1, Hc.
    replace (length (p ++ LF :: t) <? length ((y :: p) ++ LF :: t))%nat
      with true by (symmetry; apply Nat.ltb_lt; simpl; lia).
    rewrite flat_map_app.
    rewrite (IH t) by (done || simpl in Hfuel; lia).
    cbn [flat_map]. rewrite run_Seq_cons.
    rewrite (run_Chr_other LF y (p ++ LF :: t)) by done.
    reflexivity.
Qed.

(** One header line is read in exactly one way. *)
Lemma run_header_line p t c :
  Forall (fun y => y ≠ LF) p ->
  rest c = header_line p ++ t ->
  run header_line_re c = [feed (header_line p) c].
Proof.
  intros Hp Hc. unfold header_line in *. rewrite <- !app_assoc in Hc.
  unfold header_line_re. rewrite run_Seq_cons.
  rewrite (run_Lit _ _ _ Hc). cbn [flat_map]. rewrite app_nil_r.
  rewrite run_Seq_cons, run_Star. apply rest_feed in Hc.
  rewrite (run_dotstar_LF p t); [|done|done|rewrite Hc, length_app; apply Nat.le_add_r].
  by rewrite <- feed_app.
Qed.

Lemma run_header_line_end tail c :
  rest c = lit " */" ++ tail -> run header_line_re c = [].
Proof. destruct c as [p r g]. simpl. by intros ->. Qed.

Lemma length_header_lines paths :
  (length paths <= length (concat (map header_line paths)))%nat.
Proof.
  induction paths as [|p paths IH]; [done|].
  cbn [map concat length]. rewrite length_app.
  assert (1 <= length (header_line p))%nat
    by (unfold header_line; rewrite !length_app; simpl; lia).
  lia.
Qed.

(** The greedy repetition first reads all the header lines. *)
Lemma star_header_lines paths :
  forall tail c fuel,
    Forall (Forall (fun y => y ≠ LF)) paths ->
    rest c = concat (map header_line paths) ++ lit " */" ++ tail ->
    (length paths <= fuel)%nat ->
    exists others,
      star_loop (run header_line_re) fuel c
      = feed (concat (map header_line paths)) c :: others.
Proof.
  induction paths as [|p paths IH]; intros tail c fuel Hps Hc Hfuel.
  - exists []. destruct fuel; [done|]. rewrite star_loop_S.
    by rewrite (run_header_line_end tail).
  - apply Forall_cons in Hps as [Hp Hps].
    destruct fuel as [|fuel]; [simpl in Hfuel; lia|].
    cbn [map concat] in *. rewrite <- app_assoc in Hc.
    rewrite star_loop_S. rewrite (run_header_line p _ c Hp Hc).
    cbn [flat_map]. rewrite app_nil_r.
    pose proof (rest_feed _ _ _ Hc) as Hc1. rewrite Hc1, Hc.
    replace (length _ <? length (header_line p ++ _))%nat
      with true
      by (symmetry; apply Nat.ltb_lt; unfold header_line;
          rewrite !length_app; simpl; lia).
    destruct (IH tail (feed (header_line p) c) fuel Hps Hc1) as [others Ho];
      [simpl in Hfuel; lia|].
    exists (others ++ [c]). by rewrite Ho, feed_app.
Qed.

(** The header regex matches a well-formed header, and its group 1 is
    the block of header lines. *)
Lemma header_match paths tail :
  Forall (Forall (fun y => y ≠ LF)) paths ->
  exists m,
    re_match c_dml_header_re (header_block paths ++ tail) = Some m
    /\ group 1 m = Some (concat (map header_line paths)).
Proof.
  intros Hps. unfold re_match, header_block.
  set (L := concat (map header_line paths)).
  set (body := (c_dml_header ++ L ++ lit " */") ++ tail).
  assert (rest (start body) = c_dml_header ++ L ++ lit " */" ++ tail) as Hc
    by (unfold body; simpl; by rewrite <- !app_assoc).
  unfold c_dml_header_re. rewrite run_Seq_cons.
  rewrite (run_Lit _ _ _ Hc). cbn [flat_map]. rewrite app_nil_r.
  apply rest_feed in Hc. set (c0 := feed c_dml_header (start body)) in *.
  rewrite run_Seq_cons, run_Group, run_Star.
  destruct (star_header_lines paths tail c0 (length (rest c0)) Hps Hc)
    as [others ->].
  { rewrite Hc, length_app. pose proof (length_header_lines paths).
    fold L in H. lia. }
  fold L. cbn [map flat_map].
  assert (rest (capture 1 c0 (feed L c0)) = lit " */" ++ tail) as Hend
    by (simpl; by apply rest_feed).
  rewrite run_Seq_cons, (run_Lit _ _ _ Hend). cbn [flat_map].
  rewrite run_Seq_nil. cbn [app head].
  eexists. split; [reflexivity|].
  unfold group. rewrite groups_feed. cbn [groups capture].
  rewrite filter_cons_True by done. cbn [head fmap option_fmap option_map snd].
  f_equal. unfold consumed. rewrite (rest_feed _ _ _ Hc), Hc.
  rewrite length_app.
  replace (length L + length (lit " */" ++ tail) - length (lit " */" ++ tail))%nat
    with (length L) by lia.
  by rewrite take_app_length.
Qed.
End Matcher.

(** ** [splitlines] on the block of header lines *)

Lemma is_linebreak_LF y : is_linebreak y = false -> y ≠ LF.
Proof. by intros Hy ->. Qed.

Lemma splitlines_go_line s :
  forall cur t,
    Forall (fun y => is_linebreak y = false) s ->
    splitlines_go false cur (s ++ LF :: t)
    = (rev cur ++ s) :: splitlines_go false [] t.
Proof.
  induction s as [|y s IH]; intros cur t Hs.
  - simpl. by rewrite app_nil_r.
  - apply Forall_cons in Hs as [Hy Hs].
    cbn [app splitlines_go andb]. rewrite Hy, IH by done.
    simpl. by rewrite <- app_assoc.
Qed.

Lemma splitlines_header_lines paths :
  Forall (Forall (fun y => is_linebreak y = false)) paths ->
  splitlines (concat (map header_line paths))
  = map (fun p => lit " *   " ++ p) paths.
Proof.
  unfold splitlines. induction 1 as [|p paths Hp _ IH]; [done|].
  cbn [map concat]. unfold header_line at 1.
  rewrite <- !app_assoc, (app_assoc (lit " *   ")).
  change ([LF] ++ ?t) with (LF :: t).
  rewrite splitlines_go_line.
  - by rewrite IH.
  - apply Forall_app. split; [|done]. by repeat constructor.
Qed.

(** ** The order of paths *)

Lemma split_go_concat sep s :
  forall cur,
    concat (map (cons sep) (split_go sep cur s)) = sep :: rev cur ++ s.
Proof.
  induction s as [|y s IH]; intros cur.
  - simpl. by rewrite app_nil_r.
  - cbn [split_go]. destruct (y =? sep)%N eqn:Hy.
    + apply N.eqb_eq in Hy as ->. cbn [map concat]. rewrite IH. done.
    + rewrite IH. simpl. by rewrite <- app_assoc.
Qed.

Lemma path_parts_inj p q : path_parts p = path_parts q -> p = q.
Proof.
  unfold path_parts, split. intros Heq.
  pose proof (split_go_concat 47%N p []) as Hp.
  pose proof (split_go_concat 47%N q []) as Hq.
  rewrite Heq, Hq in Hp. simpl in Hp. by simplify_eq.
Qed.

Lemma str_compare_eq s t : str_compare s t = Eq <-> s = t.
Proof. apply list_compare_refl, N.compare_eq_iff. Qed.

Lemma str_compare_antisym s t : str_compare t s = CompOpp (str_compare s t).
Proof.
  apply list_compare_antisym; [apply N.compare_eq_iff|].
  intros x y. apply N.compare_antisym.
Qed.

Lemma N_compare_trans (x y z : N) c :
  (x ?= y)%N = c -> (y ?= z)%N = c -> (x ?= z)%N = c.
Proof.
  destruct c; rewrite ?N.compare_eq_iff, ?N.compare_lt_iff, ?N.compare_gt_iff; lia.
Qed.

Lemma str_compare_trans s t u c :
  str_compare s t = c -> str_compare t u = c -> str_compare s u = c.
Proof.
  apply list_compare_trans; [apply N.compare_eq_iff| |].
  - intros x y z c0. apply N_compare_trans.
  - intros x y. apply N.compare_antisym.
Qed.

Lemma path_compare_eq p q : path_compare p q = Eq <-> p = q.
Proof.
  unfold path_compare. rewrite (list_compare_refl _ str_compare_eq). split.
  - apply path_parts_inj.
  - by intros ->.
Qed.

Lemma path_compare_antisym p q : path_compare q p = CompOpp (path_compare p q).
Proof.
  apply list_compare_antisym; [apply str_compare_eq|].
  intros x y. apply str_compare_antisym.
Qed.

Lemma path_compare_trans p q r c :
  path_compare p q = c -> path_compare q r = c -> path_compare p r = c.
Proof.
  apply list_compare_trans; [apply str_compare_eq| |].
  - intros x y z c0. apply str_compare_trans.
  - intros x y. apply str_compare_antisym.
Qed.

#[global] Instance path_le_trans : Transitive path_le.
Proof.
  unfold path_le. intros p q r Hpq Hqr.
  destruct (path_compare p q) eqn:H1; [| |done].
  - apply path_compare_eq in H1 as ->. done.
  - destruct (path_compare q r) eqn:H2; [| |done].
    + apply path_compare_eq in H2 as <-. by rewrite H1.
    + by rewrite (path_compare_trans _ _ _ _ H1 H2).
Qed.

#[global] Instance path_le_antisym : AntiSymm (=) path_le.
Proof.
  unfold path_le. intros p q Hpq Hqp.
  rewrite (path_compare_antisym p q) in Hqp.
  destruct (path_compare p q) eqn:H1; [|done|done].
  by apply path_compare_eq.
Qed.

Lemma path_ltb_le p q : path_ltb p q = true -> path_le p q.
Proof. unfold path_ltb, path_le. by destruct (path_compare p q). Qed.

Lemma path_ltb_ge p q : path_ltb p q = false -> path_le q p.
Proof.
  unfold path_ltb, path_le. rewrite (path_compare_antisym p q).
  by destruct (path_compare p q).
Qed.

(** ** Sorting gives the same list for every order of the input *)

Section SortedUnique.
Context {A : Type} (ltb : A -> A -> bool) (R : relation A).
Context `{!Transitive R, !AntiSymm (=) R}.
Hypothesis ltb_le : forall x y, ltb x y = true -> R x y.
Hypothesis ltb_ge : forall x y, ltb x y = false -> R y x.

Lemma insert_sorted_Sorted x l :
  Sorted R l -> Sorted R (insert_sorted ltb x l).
Proof.
  induction 1 as [|y l Hl IH Hhd]; simpl; [by repeat constructor|].
  destruct (ltb y x) eqn:Hyx.
  - constructor; [done|].
    destruct l as [|z l]; simpl in *.
    + constructor. by apply ltb_le.
    + destruct (ltb z x); constructor.
      * by inversion Hhd.
      * by apply ltb_le.
  - constructor; [by constructor|]. constructor. by apply ltb_ge.
Qed.

Lemma sorted_Sorted l : Sorted R (sorted ltb l).
Proof.
  induction l as [|x l IH]; simpl; [constructor|].
  by apply insert_sorted_Sorted.
Qed.

Lemma sorted_Permutation_eq l1 l2 :
  l1 ≡ₚ l2 -> sorted ltb l1 = sorted ltb l2.
Proof.
  intros Hperm. apply (Sorted_unique R); [apply sorted_Sorted..|].
  by rewrite !sorted_Permutation.
Qed.
End SortedUnique.

Lemma sorted_paths_Permutation l1 l2 :
  l1 ≡ₚ l2 -> sorted path_ltb l1 = sorted path_ltb l2.
Proof.
  apply (sorted_Permutation_eq path_ltb path_le).
  - apply path_ltb_le.
  - apply path_ltb_ge.
Qed.

(** ** The result does not depend on the order of the inputs *)

Lemma for_each_ext {A S : Type} (body1 body2 : S -> A -> option S) l :
  (forall s x, body1 s x = body2 s x) ->
  forall s, for_each body1 s l = for_each body2 s l.
Proof.
  intros Hext. induction l as [|x l IH]; intros s; simpl; [done|].
  rewrite Hext. destruct (body2 s x); simpl; [apply IH|done].
Qed.

Section Determinism.
Context (fs : filesystem) (fe : frontend).

Lemma correlate_Permutation dml_files dml_files' st item :
  dml_files ≡ₚ dml_files' ->
  correlate fs fe dml_files st item = correlate fs fe dml_files' st item.
Proof.
  intros Hperm. unfold correlate. destruct st as [dead skipped], item as [f X].
  assert (bool_decide (f ∈ dml_files) = bool_decide (f ∈ dml_files')) as ->; [|done].
  apply bool_decide_ext. by rewrite Hperm.
Qed.

(** Two iterations of the last loop commute. *)
Lemma all_dead_swap dead x y :
  (all_dead fs fe dead x ≫= fun d => all_dead fs fe d y)
  = (all_dead fs fe dead y ≫= fun d => all_dead fs fe d x).
Proof.
  unfold all_dead.
  destruct (method_locations fs fe x) as [lx|] eqn:Hx;
    destruct (method_locations fs fe y) as [ly|] eqn:Hy;
    cbn [mbind option_bind]; rewrite ?Hx, ?Hy; cbn [mbind option_bind];
    try done.
  f_equal. destruct (decide (x = y)) as [->|Hne].
  - by simplify_eq.
  - by apply insert_insert_ne.
Qed.

Lemma all_dead_Permutation paths paths' :
  paths ≡ₚ paths' ->
  forall dead,
    for_each (all_dead fs fe) dead paths = for_each (all_dead fs fe) dead paths'.
Proof.
  induction 1 as [|x l l' _ IH|x y l|l1 l2 l3 _ IH1 _ IH2]; intros dead.
  - done.
  - cbn [for_each]. destruct (all_dead fs fe dead x); [apply IH|done].
  - cbn [for_each].
    pose proof (all_dead_swap dead y x) as Hswap.
    destruct (all_dead fs fe dead y) as [dy|];
      destruct (all_dead fs fe dead x) as [dx|];
      cbn [mbind option_bind] in *.
    + by rewrite Hswap.
    + by rewrite Hswap.
    + by rewrite <- Hswap.
    + done.
  - by rewrite IH1.
Qed.
End Determinism.

(** ** Scanning a text never raises *)

Lemma elem_of_flat_map {A B : Type} (f : A -> list B) (l : list A) (y : B) :
  y ∈ flat_map f l <-> exists x, x ∈ l /\ y ∈ f x.
Proof.
  rewrite list_elem_of_In, in_flat_map. split.
  - intros (x & Hx & Hy). exists x. by rewrite !list_elem_of_In.
  - intros (x & Hx & Hy). exists x. by rewrite <- !list_elem_of_In.
Qed.

Lemma elem_of_run_Seq_cons r rs c m :
  m ∈ run (Seq (r :: rs)) c <-> exists c1, c1 ∈ run r c /\ m ∈ run (Seq rs) c1.
Proof. rewrite run_Seq_cons. apply elem_of_flat_map. Qed.

Lemma elem_of_step c m :
  m ∈ step c -> exists y, rest c = y :: rest m /\ groups m = groups c.
Proof.
  unfold step. destruct (rest c) as [|y s] eqn:Hc.
  - by intros ?%elem_of_nil.
  - intros ->%list_elem_of_singleton. by exists y.
Qed.

(** What a match consumes is a prefix of what was left. *)
Lemma star_loop_consumes (body : cursor -> list cursor) (P : N -> Prop) :
  (forall c m, m ∈ body c ->
     exists d, rest c = d ++ rest m /\ Forall P d /\ groups m = groups c) ->
  forall fuel c m,
    m ∈ star_loop body fuel c ->
    exists d, rest c = d ++ rest m /\ Forall P d /\ groups m = groups c.
Proof.
  intros Hbody. induction fuel as [|fuel IH]; intros c m Hm.
  - apply list_elem_of_singleton in Hm as ->. by exists [].
  - rewrite star_loop_S in Hm. apply elem_of_app in Hm as [Hm|Hm].
    + apply elem_of_flat_map in Hm as (c1 & Hc1 & Hm).
      destruct (length (rest c1) <? length (rest c))%nat;
        [|by apply elem_of_nil in Hm].
      destruct (Hbody _ _ Hc1) as (d1 & Hd1 & HP1 & Hg1).
      destruct (IH _ _ Hm) as (d2 & Hd2 & HP2 & Hg2).
      exists (d1 ++ d2). split_and!.
      * by rewrite Hd1, Hd2, app_assoc.
      * by apply Forall_app.
      * congruence.
    + apply list_elem_of_singleton in Hm as ->. by exists [].
Qed.

Lemma run_plain r :
  plain r = true ->
  forall c m, m ∈ run r c ->
    exists d, rest c = d ++ rest m /\ groups m = groups c.
Proof.
  induction r as [|x| |lo hi| | |r1 IH1 r2 IH2|r IH|n r IH]; intros Hr c m Hm;
    simpl in Hm.
  - apply list_elem_of_singleton in Hm as ->. by exists [].
  - destruct (next_is _ c); [|by apply elem_of_nil in Hm].
    apply elem_of_step in Hm as (y & ? & ?). by exists [y].
  - destruct (next_is _ c); [|by apply elem_of_nil in Hm].
    apply elem_of_step in Hm as (y & ? & ?). by exists [y].
  - destruct (next_is _ c); [|by apply elem_of_nil in Hm].
    apply elem_of_step in Hm as (y & ? & ?). by exists [y].
  - destruct (prev c) as [p|]; [destruct (p =? LF)%N|];
      try (by apply elem_of_nil in Hm);
      apply list_elem_of_singleton in Hm as ->; by exists [].
  - destruct (rest c) as [|y s] eqn:Hc; [|destruct (y =? LF)%N];
      try (by apply elem_of_nil in Hm);
      apply list_elem_of_singleton in Hm as ->; by exists [].
  - simpl in Hr. apply andb_true_iff in Hr as [Hr1 Hr2].
    apply elem_of_flat_map in Hm as (c1 & Hc1 & Hm).
    destruct (IH1 Hr1 _ _ Hc1) as (d1 & Hd1 & Hg1).
    destruct (IH2 Hr2 _ _ Hm) as (d2 & Hd2 & Hg2).
    exists (d1 ++ d2). split; [by rewrite Hd1, Hd2, app_assoc|congruence].
  - simpl in Hr.
    assert (forall c1 m1, m1 ∈ run r c1 ->
              exists d, rest c1 = d ++ rest m1 /\ Forall (fun _ => True) d
                        /\ groups m1 = groups c1) as Hbody.
    { intros c1 m1 Hm1. destruct (IH Hr _ _ Hm1) as (d & ? & ?).
      exists d. split_and!; [done| |done]. by apply Forall_forall. }
    destruct (star_loop_consumes _ _ Hbody _ _ _ Hm) as (d & ? & _ & ?).
    by exists d.
  - done.
Qed.

Lemma run_Plus_digits c m :
  m ∈ run (Plus (Range 48 57)) c ->
  exists d, rest c = d ++ rest m /\ d ≠ [] /\ Forall is_digit d
            /\ groups m = groups c.
Proof.
  assert (forall c m, m ∈ run (Range 48 57) c ->
            exists d, rest c = d ++ rest m /\ d ≠ [] /\ Forall is_digit d
                      /\ groups m = groups c) as Hone.
  { clear. intros c m Hm. simpl in Hm. unfold next_is in Hm.
    destruct (rest c) as [|y s] eqn:Hc; [by apply elem_of_nil in Hm|].
    destruct ((48 <=? y)%N && (y <=? 57)%N) eqn:Hy; [|by apply elem_of_nil in Hm].
    apply elem_of_step in Hm as (y' & Hy' & Hg). rewrite Hc in Hy'. simplify_eq.
    exists [y']. split_and!; [done..| |done].
    apply andb_true_iff in Hy as [?%N.leb_le ?%N.leb_le]. by repeat constructor. }
  unfold Plus. rewrite run_Cat. intros (c1 & Hc1 & Hm)%elem_of_flat_map.
  destruct (Hone _ _ Hc1) as (d1 & Hd1 & Hne & HP1 & Hg1).
  rewrite run_Star in Hm.
  apply (star_loop_consumes _ is_digit) in Hm as (d2 & Hd2 & HP2 & Hg2).
  - exists (d1 ++ d2). split_and!.
    + by rewrite Hd1, Hd2, app_assoc.
    + by destruct d1.
    + by apply Forall_app.
    + congruence.
  - intros c2 m2 Hm2. destruct (Hone _ _ Hm2) as (d & ? & ? & ? & ?). by exists d.
Qed.

Lemma consumed_prefix c m d : rest c = d ++ rest m -> consumed c m = d.
Proof.
  intros Hc. unfold consumed. rewrite Hc, length_app.
  replace (length d + length (rest m) - length (rest m))%nat
    with (length d) by lia.
  by rewrite take_app_length.
Qed.

Lemma elem_of_run_Group n r c m :
  m ∈ run (Group n r) c ->
  exists c', c' ∈ run r c /\ rest m = rest c'
             /\ groups m = (n, consumed c c') :: groups c'.
Proof.
  rewrite run_Group. intros [c' [-> Hc']]%list_elem_of_fmap. by exists c'.
Qed.

Lemma int_go_digits d :
  Forall is_digit d -> forall acc, is_Some (int_go acc d).
Proof.
  induction 1 as [|y d [Hlo Hhi] _ IH]; intros acc; simpl; [done|].
  unfold digit_value.
  replace ((48 <=? y)%N && (y <=? 57)%N) with true; [apply IH|].
  symmetry. apply andb_true_iff. split; by apply N.leb_le.
Qed.

Lemma int_digits d : d ≠ [] -> Forall is_digit d -> is_Some (int d).
Proof. intros Hne Hd. destruct d; [done|]. by apply int_go_digits. Qed.

(** Every match of [line_directive_re] has its two groups, the first of
    which is a number. *)
Lemma line_directive_groups c m :
  groups c = [] ->
  m ∈ run line_directive_re c ->
  exists d f, group 1 m = Some d /\ group 2 m = Some f /\ is_Some (int d).
Proof.
  intros Hg0. unfold line_directive_re.
  intros (c1 & H1 & Hm)%elem_of_run_Seq_cons.
  eapply run_plain in H1 as (_ & _ & Hg1); [|reflexivity].
  apply elem_of_run_Seq_cons in Hm as (c2 & H2 & Hm).
  eapply run_plain in H2 as (_ & _ & Hg2); [|reflexivity].
  apply elem_of_run_Seq_cons in Hm as (c3 & H3 & Hm).
  eapply run_plain in H3 as (_ & _ & Hg3); [|reflexivity].
  apply elem_of_run_Seq_cons in Hm as (c4 & H4 & Hm).
  apply elem_of_run_Group in H4 as (c4' & H4 & _ & Hg4).
  apply run_Plus_digits in H4 as (d & Hd & Hne & Hdig & Hg4').
  apply elem_of_run_Seq_cons in Hm as (c5 & H5 & Hm).
  eapply run_plain in H5 as (_ & _ & Hg5); [|reflexivity].
  apply elem_of_run_Seq_cons in Hm as (c6 & H6 & Hm).
  eapply run_plain in H6 as (_ & _ & Hg6); [|reflexivity].
  apply elem_of_run_Seq_cons in Hm as (c7 & H7 & Hm).
  apply elem_of_run_Group in H7 as (c7' & H7 & _ & Hg7).
  eapply run_plain in H7 as (_ & _ & Hg7'); [|reflexivity].
  apply elem_of_run_Seq_cons in Hm as (c8 & H8 & Hm).
  eapply run_plain in H8 as (_ & _ & Hg8); [|reflexivity].
  apply elem_of_run_Seq_cons in Hm as (c9 & H9 & Hm).
  eapply run_plain in H9 as (_ & _ & Hg9); [|reflexivity].
  rewrite run_Seq_nil in Hm. apply list_elem_of_singleton in Hm as ->.
  exists d, (consumed c6 c7'). unfold group.
  rewrite Hg9, Hg8, Hg7, Hg7', Hg6, Hg5, Hg4, Hg4', Hg3, Hg2, Hg1, Hg0.
  rewrite (consumed_prefix _ _ _ Hd).
  split_and!; [done..|]. by apply int_digits.
Qed.

Lemma elem_of_finditer_from r s :
  forall skip p m,
    m ∈ finditer_from r skip p s ->
    exists c, groups c = [] /\ m ∈ run r c.
Proof.
  induction s as [|y s IH]; intros skip p m Hm; destruct skip as [|k];
    cbn [finditer_from] in Hm.
  - destruct (run r (Cursor p [] [])) as [|m0 ms] eqn:Hrun;
      [by apply elem_of_nil in Hm|].
    apply list_elem_of_singleton in Hm as ->.
    exists (Cursor p [] []). split; [done|]. rewrite Hrun. by left.
  - by apply elem_of_nil in Hm.
  - destruct (run r (Cursor p (y :: s) [])) as [|m0 ms] eqn:Hrun; [by eapply IH|].
    apply elem_of_cons in Hm as [->|Hm]; [|by eapply IH].
    exists (Cursor p (y :: s) []). split; [done|]. rewrite Hrun. by left.
  - by eapply IH.
Qed.

Lemma for_each_total {A S : Type} (body : S -> A -> option S) l :
  (forall s x, x ∈ l -> is_Some (body s x)) ->
  forall s, is_Some (for_each body s l).
Proof.
  induction l as [|x l IH]; intros Hbody s; simpl; [done|].
  destruct (Hbody s x) as [s' ->]; [by left|]. simpl.
  apply IH. intros ? ? ?. apply Hbody. by right.
Qed.

(** The scan of a text always succeeds. *)
Lemma linemarks_by_pathstr_total text : is_Some (linemarks_by_pathstr text).
Proof.
  unfold linemarks_by_pathstr. apply for_each_total. intros acc m Hm.
  apply elem_of_finditer_from in Hm as (c & Hg & Hm).
  destruct (line_directive_groups _ _ Hg Hm) as (d & f & Hd & Hf & [n Hn]).
  unfold record_match. rewrite Hd, Hf. simpl. rewrite Hn. done.
Qed.

(** ** [find_dead_methods] returns when the files can be read and parsed *)

Lemma sweep_step_eq f unconsumed dead loc :
  sweep_step f (unconsumed, dead) loc
  = (m ← head unconsumed;
     unconsumed' ← advance unconsumed (last_line loc);
     Some (unconsumed',
           if mark_gt m (last_line loc) && negb (ignored loc)
           then <[f := default [] (dead !! f) ++ [(first_line loc, name loc)]]> dead
           else dead)).
Proof. reflexivity. Qed.

Lemma sweep_total f locs :
  forall unconsumed dead,
    Inf ∈ unconsumed ->
    is_Some (for_each (sweep_step f) (unconsumed, dead) locs).
Proof.
  induction locs as [|loc locs IH]; intros u dead Hinf; [done|].
  cbn [for_each].
  destruct (advance_Inf u (last_line loc) Hinf) as (u' & Hadv & Hinf').
  rewrite sweep_step_eq.
  destruct u as [|m u]; [by apply elem_of_nil in Hinf|].
  cbn [head mbind option_bind]. rewrite Hadv. cbn [mbind option_bind].
  by apply IH.
Qed.

Lemma sorted_linemarks_Inf X : Inf ∈ sorted_linemarks X.
Proof. unfold sorted_linemarks. apply elem_of_app. right. by left. Qed.

Theorem find_dead_methods_total fs fe c_files dml_files :
  (forall c, c ∈ c_files -> is_Some (read_text fs c)) ->
  (forall f, f ∈ dml_files -> is_Some (method_locations fs fe f)) ->
  is_Some (find_dead_methods fs fe c_files dml_files).
Proof.
  intros Hread Hparse. unfold find_dead_methods.
  destruct (for_each_total (scan_c_file fs) (sorted path_ltb c_files))
    with (s := @nil (list N * gset Z)) as [by_path Hscan].
  { intros acc c Hc%elem_of_sorted. unfold scan_c_file.
    destruct (Hread c Hc) as [text ->]. cbn [mbind option_bind].
    destruct (linemarks_by_pathstr_total text) as [items ->]. done. }
  unfold linemarks_by_path. rewrite Hscan. cbn [mbind option_bind].
  destruct (for_each_total (correlate fs fe dml_files) by_path)
    with (s := (∅ : gmap (list N) (list (Z * list N)), @nil (list N)))
    as [[dead skipped] Hloop].
  { intros [dead skipped] [f X] _. unfold correlate.
    case_bool_decide as Hscope; [|done].
    destruct (Hparse f Hscope) as [locs ->]. cbn [mbind option_bind].
    destruct (sweep_total f (sorted location_ltb locs) (sorted_linemarks X) dead
                (sorted_linemarks_Inf X)) as [st' ->].
    done. }
  rewrite Hloop. cbn [mbind option_bind].
  destruct (for_each_total (all_dead fs fe)
              (filter (fun p => p ∉ dict_keys by_path) dml_files))
    with (s := dead) as [dead' Hrest].
  { intros acc p [_ Hp]%list_elem_of_filter. unfold all_dead.
    destruct (Hparse p Hp) as [locs ->]. done. }
  rewrite Hrest. done.
Qed.

(** ** The sample build *)

(** The two [assert]s of the source. *)
Example dml_sources_from_body_assert :
  dml_sources_from_body (lit "/*
 * Generated by dmlc, do not edit!
 *
 * Source files:
 *   /a/b.dml
 *   /c/d.dml
 */
blah blah") = Some [lit "/a/b.dml"; lit "/c/d.dml"].
Proof. vm_compute. reflexivity. Qed.

Example line_directive_re_assert :
  (fun m => (group 1 m, group 2 m))
    <$> head (finditer line_directive_re
                (lit "
foo
" ++ Sample.directive 3 "109" "foo.dml" ++ lit "   bar"))
  = Some (Some (lit "109"), Some (lit "foo.dml")).
Proof. vm_compute. reflexivity. Qed.

Example sample_linemarks :
  linemarks_by_path Sample.fs Sample.c_files
  = Some [ (lit "/src/dev.dml", {[3; 7]});
           (lit "/src/old.dml", {[12]});
           (lit "/lib/util.dml", {[5]}) ].
Proof. vm_compute. reflexivity. Qed.

Example sample_find_dead_methods :
  find_dead_methods Sample.fs Sample.fe Sample.c_files Sample.dml_files
  = Some (<[lit "/src/dev.dml" := [(11, lit "c")]]>
          (<[lit "/src/none.dml" := [(1, lit "p")]]>
           (<[lit "/src/stubs.dml" := []]> ∅)),
          [lit "/lib/util.dml"]).
Proof. vm_compute. reflexivity. Qed.

(** With the second C file of the sample, method [c] is live as well. *)
Example sample_two_c_files :
  find_dead_methods Sample.fs Sample.fe
    [lit "/o/dev-dml.c"; lit "/o/aux-dml.c"]
    [lit "/src/dev.dml"; lit "/src/none.dml"]
  = Some (<[lit "/src/none.dml" := [(1, lit "p")]]> ∅,
          [lit "/src/old.dml"; lit "/lib/util.dml"]).
Proof. vm_compute. reflexivity. Qed.

(** ** The sweep over sorted marks *)

#[local] Instance Z_le_trans : Transitive Z.le.
Proof. intros x y z. lia. Qed.

#[local] Instance Z_le_antisym : AntiSymm (=) Z.le.
Proof. intros x y. lia. Qed.

Lemma sorted_Z_StronglySorted l : StronglySorted Z.le (sorted Z.ltb l).
Proof.
  apply Sorted_StronglySorted; [apply _|].
  apply (sorted_Sorted Z.ltb Z.le).
  - intros x y ?%Z.ltb_lt. lia.
  - intros x y ?%Z.ltb_ge. lia.
Qed.

Lemma StronglySorted_filter {A : Type} (R : relation A) (P : A -> Prop)
    `{!forall x, Decision (P x)} l :
  StronglySorted R l -> StronglySorted R (filter P l).
Proof.
  induction 1 as [|x l Hl IH Hx]; [constructor|].
  destruct (decide (P x)).
  - rewrite filter_cons_True by done. constructor; [done|].
    apply Forall_forall. intros y [_ Hy]%list_elem_of_filter.
    rewrite Forall_forall in Hx. by apply Hx.
  - by rewrite filter_cons_False.
Qed.

Lemma filter_Forall_id {A : Type} (P : A -> Prop) `{!forall x, Decision (P x)} l :
  Forall P l -> filter P l = l.
Proof.
  induction 1 as [|x l Hx _ IH]; [done|].
  rewrite filter_cons_True by done. by rewrite IH.
Qed.

(** The [while] loop drops the marks up to [last]. *)
Lemma advance_sorted ms last :
  StronglySorted Z.le ms ->
  advance (map Line ms ++ [Inf]) last
  = Some (map Line (filter (fun m => last < m) ms) ++ [Inf]).
Proof.
  induction 1 as [|m ms Hms IH Hm]; [done|].
  cbn [map app advance mark_le]. destruct (m <=? last) eqn:Hle.
  - apply Z.leb_le in Hle. rewrite filter_cons_False by lia. exact IH.
  - apply Z.leb_gt in Hle. f_equal.
    rewrite filter_Forall_id; [done|].
    constructor; [done|]. eapply Forall_impl; [exact Hm|].
    intros y Hy. simpl in Hy. lia.
Qed.

(** The mark under the pointer is beyond [last] exactly when all the
    marks that are left are. *)
Lemma head_sorted_gt ms last m :
  StronglySorted Z.le ms ->
  head (map Line ms ++ [Inf]) = Some m ->
  mark_gt m last = true <-> Forall (fun y => last < y) ms.
Proof.
  intros Hms Hm. destruct Hms as [|m0 ms Hms Hm0]; simpl in Hm; simplify_eq.
  - split; intros _; [constructor|reflexivity].
  - simpl. rewrite Z.ltb_lt. split.
    + intros Hlt. constructor; [done|]. eapply Forall_impl; [exact Hm0|].
      intros y Hy. simpl in Hy. lia.
    + by intros [? _]%Forall_cons.
Qed.

Lemma beyond_raise bound last m :
  beyond (raise_bound bound last) m <-> last < m /\ beyond bound m.
Proof. destruct bound; simpl; lia. Qed.

(** What the loop over the locations appends, from any bound on. *)
Lemma report_sweep_rule X locs :
  forall bound,
    report (map Line (filter (beyond bound) (sorted Z.ltb (elements X))) ++ [Inf])
           locs
    = Some (sweep_rule X bound locs).
Proof.
  set (ms := sorted Z.ltb (elements X)).
  assert (Hms : StronglySorted Z.le ms) by apply sorted_Z_StronglySorted.
  assert (Hin : forall m, m ∈ ms <-> m ∈ X).
  { intros m. unfold ms. by rewrite elem_of_sorted, elem_of_elements. }
  induction locs as [|loc locs IH]; intros bound; [done|].
  pose proof (StronglySorted_filter Z.le (beyond bound) ms Hms) as Hb.
  cbn [report sweep_rule].
  destruct (head (map Line (filter (beyond bound) ms) ++ [Inf])) as [m|] eqn:Hm.
  2:{ by destruct (filter (beyond bound) ms). }
  cbn [mbind option_bind]. rewrite (advance_sorted _ _ Hb).
  cbn [mbind option_bind].
  rewrite list_filter_filter.
  rewrite (list_filter_iff _ (beyond (raise_bound bound (last_line loc))))
    by (intros y; by rewrite beyond_raise).
  rewrite IH. cbn [mbind option_bind]. f_equal.
  pose proof (head_sorted_gt _ (last_line loc) m Hb Hm) as Hgt.
  destruct (decide (dead_by_sweep X bound loc)) as [[Hi Hd]|Hnd].
  - rewrite Hi. replace (mark_gt m (last_line loc)) with true; [done|].
    symmetry. apply Hgt. apply Forall_forall.
    intros y [Hy Hy']%list_elem_of_filter. apply Hd; [by apply Hin|done].
  - destruct (mark_gt m (last_line loc) && negb (ignored loc)) eqn:Hc; [|done].
    exfalso. apply Hnd. apply andb_true_iff in Hc as [Hc Hi].
    split; [by destruct (ignored loc)|].
    intros y Hy Hby. apply Hgt in Hc. rewrite Forall_forall in Hc.
    apply Hc. apply list_elem_of_filter. split; [done|by apply Hin].
Qed.

Lemma filter_beyond_None (ms : list Z) : filter (beyond None) ms = ms.
Proof. apply filter_Forall_id, Forall_forall. done. Qed.

Lemma report_sorted_linemarks X locs :
  report (sorted_linemarks X) locs = Some (sweep_rule X None locs).
Proof.
  unfold sorted_linemarks. rewrite <- (report_sweep_rule X locs None).
  by rewrite filter_beyond_None.
Qed.

(** ** The sweep rule and the spans *)

Lemma no_overlap_cons loc locs :
  no_overlap (loc :: locs) ->
  Forall (fun l => last_line loc < first_line l) locs /\ no_overlap locs.
Proof. unfold no_overlap. intros H. inversion H; subst. done. Qed.

(** Without overlap, what the sweep reports is dead by its span. *)
Lemma sweep_rule_sublist_span X locs :
  forall bound,
    Forall (fun l => beyond bound (first_line l)) locs ->
    no_overlap locs ->
    sweep_rule X bound locs `sublist_of` span_report X locs.
Proof.
  unfold span_report.
  induction locs as [|loc locs IH]; intros bound Hb Hno; [done|].
  apply Forall_cons in Hb as [Hb Hbs].
  apply no_overlap_cons in Hno as [Hlast Hno].
  assert (sweep_rule X (raise_bound bound (last_line loc)) locs
          `sublist_of` map (fun l => (first_line l, name l))
                           (filter (dead_by_span X) locs)) as Hrest.
  { apply IH; [|done]. rewrite Forall_forall in *. intros l Hl.
    apply beyond_raise. auto. }
  cbn [sweep_rule].
  destruct (decide (dead_by_sweep X bound loc)) as [[Hi Hd]|Hnd].
  - rewrite filter_cons_True.
    + cbn [map app]. by apply sublist_skip.
    + split; [done|]. intros m Hm [Hlo Hhi].
      assert (last_line loc < m); [|lia].
      apply Hd; [done|]. destruct bound; simpl in *; [lia|done].
  - cbn [app]. destruct (decide (dead_by_span X loc)).
    + rewrite filter_cons_True by done. cbn [map]. by apply sublist_cons.
    + by rewrite filter_cons_False.
Qed.

(** Without overlap and with every mark inside a location, the sweep
    reports exactly the locations that are dead by their span. *)
Lemma sweep_rule_span X locs :
  forall bound,
    Forall (fun l => beyond bound (first_line l)) locs ->
    no_overlap locs ->
    set_Forall (fun m => beyond bound m ->
                         exists l, l ∈ locs /\ first_line l <= m <= last_line l) X ->
    sweep_rule X bound locs = span_report X locs.
Proof.
  unfold span_report.
  induction locs as [|loc locs IH]; intros bound Hb Hno Hcov; [done|].
  apply Forall_cons in Hb as [Hb Hbs].
  apply no_overlap_cons in Hno as [Hlast Hno].
  rewrite Forall_forall in Hlast.
  cbn [sweep_rule]. rewrite IH; [|rewrite Forall_forall in *..|done|].
  - destruct (decide (dead_by_sweep X bound loc)) as [[Hi Hd]|Hnd].
    + rewrite filter_cons_True; [done|].
      split; [done|]. intros m Hm [Hlo Hhi].
      assert (last_line loc < m); [|lia].
      apply Hd; [done|]. destruct bound; simpl in *; [lia|done].
    + rewrite filter_cons_False; [done|].
      intros [Hi Hs]. apply Hnd. split; [done|].
      intros m Hm Hbm. destruct (Hcov m Hm Hbm) as (l & [->|Hl]%elem_of_cons & Hin).
      * by destruct (Hs m Hm).
      * specialize (Hlast l Hl). lia.
  - intros l Hl. apply beyond_raise. auto.
  - intros m Hm [Hlt Hbm]%beyond_raise.
    destruct (Hcov m Hm Hbm) as (l & [->|Hl]%elem_of_cons & Hin); [lia|eauto].
Qed.

(** More marks, fewer dead locations. *)
Lemma sweep_rule_mono X X' locs :
  X ⊆ X' ->
  forall bound, sweep_rule X' bound locs `sublist_of` sweep_rule X bound locs.
Proof.
  intros Hsub. induction locs as [|loc locs IH]; intros bound; [done|].
  cbn [sweep_rule].
  destruct (decide (dead_by_sweep X' bound loc)) as [[Hi Hd]|Hnd].
  - rewrite decide_True.
    + cbn [app]. apply sublist_skip, IH.
    + split; [done|]. intros m Hm. apply Hd. by apply Hsub.
  - cbn [app]. destruct (decide (dead_by_sweep X bound loc)).
    + cbn [app]. apply sublist_cons, IH.
    + apply IH.
Qed.

(** What the sweep reports are locations that are not ignored, in the
    order of the list. *)
Lemma sweep_rule_sublist X locs :
  forall bound, sweep_rule X bound locs `sublist_of` unmarked_report locs.
Proof.
  unfold unmarked_report.
  induction locs as [|loc locs IH]; intros bound; [done|].
  cbn [sweep_rule].
  destruct (decide (dead_by_sweep X bound loc)) as [[Hi Hd]|Hnd].
  - rewrite filter_cons_True by done. cbn [map app]. apply sublist_skip, IH.
  - cbn [app]. destruct (decide (ignored loc = false)).
    + rewrite filter_cons_True by done. cbn [map]. apply sublist_cons, IH.
    + rewrite filter_cons_False by done. apply IH.
Qed.

(** ** Sorted, separated locations do not overlap *)

Lemma location_ltb_first a b :
  location_ltb a b = true -> first_line a <= first_line b.
Proof.
  unfold location_ltb, location_compare.
  destruct (first_line a ?= first_line b) eqn:Hc; [| |done]; intros _.
  - apply Z.compare_eq_iff in Hc. lia.
  - change (first_line a < first_line b) in Hc. lia.
Qed.

Lemma location_ltb_first_ge a b :
  location_ltb a b = false -> first_line b <= first_line a.
Proof.
  unfold location_ltb, location_compare.
  destruct (first_line a ?= first_line b) eqn:Hc; [|done|]; intros _.
  - apply Z.compare_eq_iff in Hc. lia.
  - apply Z.compare_gt_iff in Hc. lia.
Qed.

Lemma sorted_locations_first locs :
  StronglySorted (fun a b => first_line a <= first_line b)
                 (sorted location_ltb locs).
Proof.
  apply Sorted_StronglySorted; [intros a b c ? ?; lia|].
  apply (sorted_Sorted location_ltb (fun a b => first_line a <= first_line b)).
  - apply location_ltb_first.
  - apply location_ltb_first_ge.
Qed.

Lemma separated_sorted_no_overlap sl :
  StronglySorted (fun a b => first_line a <= first_line b) sl ->
  separated sl -> no_overlap sl.
Proof.
  unfold no_overlap. induction 1 as [|a sl Hsl IH Ha]; [constructor|].
  intros (Hnd & Hwf & Hsep).
  apply NoDup_cons in Hnd as [Hnotin Hnd].
  apply Forall_cons in Hwf as [Hwa Hwf].
  apply Forall_cons in Hsep as [Hsa Hsep].
  apply Forall_cons in Hsa as [_ Hsa]. constructor.
  - apply IH. split_and!; [done..|].
    eapply Forall_impl; [exact Hsep|]. intros x Hx.
    by apply Forall_cons in Hx as [_ Hx].
  - rewrite Forall_forall in *. intros b Hb.
    assert (a ≠ b) by (intros ->; done).
    specialize (Ha b Hb). specialize (Hwf b Hb). simpl in Ha.
    destruct (Hsa b Hb) as [?|?]; [done| |]; lia.
Qed.

Lemma separated_Permutation locs locs' :
  locs ≡ₚ locs' -> separated locs -> separated locs'.
Proof.
  intros Hperm (Hnd & Hwf & Hsep). split_and!.
  - by rewrite <- Hperm.
  - by rewrite <- Hperm.
  - rewrite Forall_forall in *. intros a Ha.
    rewrite <- Hperm in Ha. rewrite <- Hperm. by apply Hsep.
Qed.

Lemma separated_no_overlap locs :
  separated locs -> no_overlap (sorted location_ltb locs).
Proof.
  intros Hsep. apply separated_sorted_no_overlap.
  - apply sorted_locations_first.
  - eapply separated_Permutation; [|exact Hsep].
    symmetry. apply sorted_Permutation.
Qed.

Lemma covered_sorted X locs bound :
  covered X locs ->
  set_Forall (fun m => beyond bound m ->
                       exists l, l ∈ sorted location_ltb locs
                                 /\ first_line l <= m <= last_line l) X.
Proof.
  intros Hc m Hm _. destruct (proj1 (Exists_exists _ _) (Hc m Hm)) as (l & Hl & Hin).
  exists l. split; [by apply elem_of_sorted|done].
Qed.

(** ** Where the marks come from *)

(** The values of an updated dictionary hold what they held, and the key
    that was updated holds what the update adds. *)
Lemma dict_upsert_has {K V E : Type} `{EqDecision K}
    (has : V -> E -> Prop) (new : E -> Prop) (k : K) (v0 : V) (f : V -> V) d :
  (forall v e, has (f v) e <-> has v e \/ new e) ->
  (forall e, ~ has v0 e) ->
  forall k' e,
    (exists v, (k', v) ∈ dict_upsert k v0 f d /\ has v e)
    <-> (exists v, (k', v) ∈ d /\ has v e) \/ (k' = k /\ new e).
Proof.
  intros Hf H0 k' e. induction d as [|[k1 v1] d IH]; cbn [dict_upsert].
  - split.
    + intros (v & Hin & Hv). apply list_elem_of_singleton in Hin.
      simplify_eq. apply Hf in Hv as [Hv|Hv]; [by apply H0 in Hv|by right].
    + intros [(v & Hin & _)|[-> Hn]]; [by apply elem_of_nil in Hin|].
      exists (f v0). split; [by left|]. apply Hf. by right.
  - destruct (decide (k1 = k)) as [->|Hne].
    + split.
      * intros (v & [Heq|Hin]%elem_of_cons & Hv).
        -- simplify_eq. apply Hf in Hv as [Hv|Hv]; [|by right].
           left. exists v1. split; [by left|done].
        -- left. exists v. split; [by right|done].
      * intros [(v & [Heq|Hin]%elem_of_cons & Hv)|[-> Hn]].
        -- simplify_eq. exists (f v1). split; [by left|]. apply Hf. by left.
        -- exists v. split; [by right|done].
        -- exists (f v1). split; [by left|]. apply Hf. by right.
    + split.
      * intros (v & [Heq|Hin]%elem_of_cons & Hv).
        -- simplify_eq. left. exists v1. split; [by left|done].
        -- destruct (proj1 IH) as [(v' & ? & ?)|?]; [by exists v| |by right].
           left. exists v'. split; [by right|done].
      * intros [(v & [Heq|Hin]%elem_of_cons & Hv)|Hk].
        -- simplify_eq. exists v1. split; [by left|done].
        -- destruct (proj2 IH) as (v' & ? & ?); [left; by exists v|].
           exists v'. split; [by right|done].
        -- destruct (proj2 IH) as (v' & ? & ?); [by right|].
           exists v'. split; [by right|done].
Qed.

Lemma record_match_Some acc m acc' :
  record_match acc m = Some acc' ->
  exists d n, directive_of m = Some (d, n)
              /\ acc' = dict_upsert d [] (fun l => l ++ [n]) acc.
Proof.
  unfold record_match, directive_of.
  destruct (group 1 m) as [line_str|]; [|done]. cbn [mbind option_bind].
  destruct (group 2 m) as [dml_file|]; [|done]. cbn [mbind option_bind].
  destruct (int line_str) as [n|]; [|done]. cbn [mbind option_bind].
  intros [= <-]. by exists dml_file, n.
Qed.

Lemma for_each_record_match ms :
  forall acc items,
    for_each record_match acc ms = Some items ->
    forall d n,
      (exists l, (d, l) ∈ items /\ n ∈ l)
      <-> (exists l, (d, l) ∈ acc /\ n ∈ l) \/ (d, n) ∈ omap directive_of ms.
Proof.
  induction ms as [|m ms IH]; intros acc items Hrun d n.
  - simpl in Hrun. simplify_eq.
    change (omap directive_of []) with (@nil (list N * Z)).
    rewrite elem_of_nil. tauto.
  - cbn [for_each] in Hrun.
    destruct (record_match acc m) as [acc1|] eqn:Hm; [|done].
    cbn [mbind option_bind] in Hrun.
    apply record_match_Some in Hm as (d0 & n0 & Hdir & ->).
    rewrite (IH _ _ Hrun).
    change (omap directive_of (m :: ms))
      with (match directive_of m with
            | Some y => y :: omap directive_of ms
            | None => omap directive_of ms
            end).
    rewrite Hdir. rewrite elem_of_cons.
    rewrite (dict_upsert_has (fun (l : list Z) x => x ∈ l) (fun x => x = n0)).
    + split; [intros [[?|[-> ->]]|?]|intros [?|[?|?]]]; simplify_eq; tauto.
    + intros l x. rewrite elem_of_app, list_elem_of_singleton. tauto.
    + intros x. apply not_elem_of_nil.
Qed.

(** The line lists of a text hold the directives of the text. *)
Lemma linemarks_by_pathstr_directives text items :
  linemarks_by_pathstr text = Some items ->
  forall d n, (exists l, (d, l) ∈ items /\ n ∈ l) <-> (d, n) ∈ directives text.
Proof.
  intros Hrun d n. rewrite (for_each_record_match _ _ _ Hrun).
  split; [intros [(l & Hin & _)|?]|by right]; [|done].
  by apply elem_of_nil in Hin.
Qed.

Section Marks.
Context (fs : filesystem).

Lemma foldl_merge_linemarks_marks c items :
  forall by_path k n,
    (exists X, (k, X) ∈ foldl (merge_linemarks fs c) by_path items /\ n ∈ X)
    <-> (exists X, (k, X) ∈ by_path /\ n ∈ X)
        \/ (exists d l, (d, l) ∈ items /\ n ∈ l /\ target fs c d = k /\ k ≠ c).
Proof.
  induction items as [|[d0 l0] items IH]; intros by_path k n; cbn [foldl].
  - split; [by left|]. intros [?|(d & l & Hin & _)]; [done|].
    by apply elem_of_nil in Hin.
  - rewrite IH. unfold merge_linemarks. cbn [fst snd]. fold (target fs c d0).
    case_bool_decide as Hself.
    + rewrite (dict_upsert_has (fun (X : gset Z) x => x ∈ X) (fun x => x ∈ l0)).
      * split.
        -- intros [[?|[-> ?]]|(d & l & Hin & ?)]; [by left| |].
           ++ right. exists d0, l0. split_and!; [by left|done..].
           ++ right. exists d, l. split; [by right|done].
        -- intros [?|(d & l & [Heq|Hin]%elem_of_cons & Hn & Ht & Hk)].
           ++ by left; left.
           ++ simplify_eq. left. right. done.
           ++ right. by exists d, l.
      * intros X x. rewrite elem_of_union, elem_of_list_to_set. tauto.
      * intros x. apply not_elem_of_empty.
    + split.
      * intros [?|(d & l & Hin & ?)]; [by left|].
        right. exists d, l. split; [by right|done].
      * intros [?|(d & l & [Heq|Hin]%elem_of_cons & Hn & Ht & Hk)].
        -- by left.
        -- by simplify_eq.
        -- right. by exists d, l.
Qed.

Lemma scan_c_file_marks by_path c by_path' :
  scan_c_file fs by_path c = Some by_path' ->
  exists text,
    read_text fs c = Some text
    /\ forall k n,
         (exists X, (k, X) ∈ by_path' /\ n ∈ X)
         <-> (exists X, (k, X) ∈ by_path /\ n ∈ X)
             \/ (exists d, (d, n) ∈ directives text /\ target fs c d = k /\ k ≠ c).
Proof.
  unfold scan_c_file. destruct (read_text fs c) as [text|]; [|done].
  cbn [mbind option_bind].
  destruct (linemarks_by_pathstr text) as [items|] eqn:Hitems; [|done].
  cbn [mbind option_bind]. intros [= <-]. exists text. split; [done|].
  intros k n. rewrite foldl_merge_linemarks_marks.
  pose proof (linemarks_by_pathstr_directives _ _ Hitems) as Hd.
  split; (intros [?|Hr]; [by left|right]).
  - destruct Hr as (d & l & Hin & Hn & ?). exists d. split; [|done].
    apply Hd. eauto.
  - destruct Hr as (d & (l & ? & ?)%Hd & ?). by exists d, l.
Qed.

Lemma for_each_scan_c_file_marks cs :
  forall by_path by_path',
    for_each (scan_c_file fs) by_path cs = Some by_path' ->
    forall k n,
      (exists X, (k, X) ∈ by_path' /\ n ∈ X)
      <-> (exists X, (k, X) ∈ by_path /\ n ∈ X)
          \/ (exists c text d, c ∈ cs /\ read_text fs c = Some text
                /\ (d, n) ∈ directives text /\ target fs c d = k /\ k ≠ c).
Proof.
  induction cs as [|c cs IH]; intros by_path by_path' Hrun k n.
  - simpl in Hrun. simplify_eq. split; [by left|].
    intros [?|(c & ? & ? & Hin & _)]; [done|]. by apply elem_of_nil in Hin.
  - cbn [for_each] in Hrun.
    destruct (scan_c_file fs by_path c) as [by_path1|] eqn:Hc; [|done].
    cbn [mbind option_bind] in Hrun.
    apply scan_c_file_marks in Hc as (text & Htext & Hc).
    rewrite (IH _ _ Hrun), Hc. split.
    + intros [[?|(d & ? & ?)]|(c' & text' & d & ? & ?)]; [by left| |].
      * right. exists c, text, d. split; [by left|done].
      * right. exists c', text', d. split; [by right|done].
    + intros [?|(c' & text' & d & [->|Hin]%elem_of_cons & Ht & ?)].
      * by left; left.
      * simplify_eq. left. right. by exists d.
      * right. by exists c', text', d.
Qed.

(** The marks of a path are the line numbers of the directives that
    resolve to it from another C file. *)
Lemma linemarks_by_path_marks c_files by_path :
  linemarks_by_path fs c_files = Some by_path ->
  forall k n,
    (exists X, (k, X) ∈ by_path /\ n ∈ X)
    <-> exists c text d, c ∈ c_files /\ read_text fs c = Some text
                         /\ (d, n) ∈ directives text /\ target fs c d = k /\ k ≠ c.
Proof.
  unfold linemarks_by_path. intros Hrun k n.
  rewrite (for_each_scan_c_file_marks _ _ _ Hrun). split.
  - intros [(X & Hin & _)|(c & text & d & Hc%elem_of_sorted & ?)].
    + by apply elem_of_nil in Hin.
    + by exists c, text, d.
  - intros (c & text & d & Hc & ?). right. exists c, text, d.
    split; [by apply elem_of_sorted|done].
Qed.
End Marks.

(** ** Every key of [linemarks_by_path] has a mark *)

Lemma dict_upsert_Forall {K V : Type} `{EqDecision K}
    (P : V -> Prop) (k : K) (v0 : V) (f : V -> V) d :
  (forall v, P (f v)) ->
  Forall (fun kv => P (snd kv)) d ->
  Forall (fun kv => P (snd kv)) (dict_upsert k v0 f d).
Proof.
  intros Hf. induction 1 as [|[k1 v1] d Hv Hd IH]; cbn [dict_upsert].
  - repeat constructor. apply Hf.
  - destruct (decide (k1 = k)); constructor; try done. apply Hf.
Qed.

Lemma linemarks_by_pathstr_nonempty text items :
  linemarks_by_pathstr text = Some items ->
  Forall (fun kv => snd kv ≠ []) items.
Proof.
  unfold linemarks_by_pathstr.
  apply (for_each_invariant _ (fun d => Forall (fun kv => snd kv ≠ []) d));
    [|constructor].
  intros acc m acc' _ Hacc (d & n & _ & ->)%record_match_Some.
  apply (dict_upsert_Forall (fun l => l ≠ [])); [|done].
  intros l. by destruct l.
Qed.

Lemma linemarks_by_path_nonempty fs c_files by_path :
  linemarks_by_path fs c_files = Some by_path ->
  Forall (fun kX => snd kX ≠ ∅) by_path.
Proof.
  unfold linemarks_by_path.
  apply (for_each_invariant _ (fun d => Forall (fun kX => snd kX ≠ (∅ : gset Z)) d));
    [|constructor].
  intros acc c acc' _ Hacc Hscan. unfold scan_c_file in Hscan.
  destruct (read_text fs c) as [text|]; [|done]. cbn [mbind option_bind] in Hscan.
  destruct (linemarks_by_pathstr text) as [items|] eqn:Hitems; [|done].
  cbn [mbind option_bind] in Hscan. simplify_eq.
  apply linemarks_by_pathstr_nonempty in Hitems.
  revert acc Hacc. induction Hitems as [|[d l] items Hl _ IH]; intros acc Hacc;
    [done|].
  cbn [foldl]. apply IH. unfold merge_linemarks. cbn [fst snd] in *.
  case_bool_decide; [|done].
  apply (dict_upsert_Forall (fun X => X ≠ (∅ : gset Z))); [|done].
  intros X. destruct l as [|n l]; [done|]. set_solver.
Qed.

(** A path is a key of [linemarks_by_path] when it has a mark. *)
Lemma linemarks_by_path_key fs c_files by_path k :
  linemarks_by_path fs c_files = Some by_path ->
  k ∈ dict_keys by_path <-> exists X n, (k, X) ∈ by_path /\ n ∈ X.
Proof.
  intros Hscan. split.
  - intros [X HX]%dict_keys_elem.
    pose proof (linemarks_by_path_nonempty _ _ _ Hscan) as Hne.
    rewrite Forall_forall in Hne. specialize (Hne _ HX). cbn [snd] in Hne.
    apply set_choose_L in Hne as [n Hn]. by exists X, n.
  - intros (X & n & HX & _). by apply (elem_of_dict_keys _ X).
Qed.

(** ** The entries of the report *)


Lemma dict_value_unique {K V : Type} `{EqDecision K} (k : K) (v v' : V) d :
  NoDup (dict_keys d) -> (k, v) ∈ d -> (k, v') ∈ d -> v = v'.
Proof.
  intros Hnd Hv Hv'.
  apply (dict_get_elem_NoDup _ _ _ Hnd) in Hv, Hv'. congruence.
Qed.

Section Entries.
Context (fs : filesystem) (fe : frontend).

(** The entry of a file with marks. *)
Lemma marked_entry c_files dml_files by_path f X locs dead skipped :
  find_dead_methods fs fe c_files dml_files = Some (dead, skipped) ->
  linemarks_by_path fs c_files = Some by_path ->
  (f, X) ∈ by_path ->
  f ∈ dml_files ->
  method_locations fs fe f = Some locs ->
  dead !! f = entry_of (sweep_rule X None (sorted location_ltb locs)).
Proof.
  intros Hrun Hscan HX Hscope Hlocs.
  destruct (find_dead_methods_spec _ _ _ _ _ _ Hrun)
    as (by_path' & Hscan' & _ & _ & Hin & _).
  rewrite Hscan in Hscan'. simplify_eq.
  destruct (Hin f X HX Hscope) as (locs' & r & Hlocs' & Hr & ->).
  rewrite Hlocs in Hlocs'. rewrite report_sorted_linemarks in Hr.
  by simplify_eq.
Qed.

(** The entry of a file in scope without marks. *)
Lemma unmarked_entry c_files dml_files by_path f locs dead skipped :
  find_dead_methods fs fe c_files dml_files = Some (dead, skipped) ->
  linemarks_by_path fs c_files = Some by_path ->
  f ∉ dict_keys by_path ->
  f ∈ dml_files ->
  method_locations fs fe f = Some locs ->
  dead !! f = Some (unmarked_report locs).
Proof.
  intros Hrun Hscan Hkey Hscope Hlocs.
  destruct (find_dead_methods_spec _ _ _ _ _ _ Hrun)
    as (by_path' & Hscan' & _ & _ & _ & Hout & _).
  rewrite Hscan in Hscan'. simplify_eq.
  destruct (Hout f Hscope Hkey) as (locs' & Hlocs' & ->). congruence.
Qed.

Lemma entry_of_Some r rep : entry_of r = Some rep -> r = rep /\ rep ≠ [].
Proof. destruct r; [done|]. by intros [= <-]. Qed.
End Entries.

(** ** Order and growth of the reports *)

Lemma sweep_rule_elem X locs bound x :
  x ∈ sweep_rule X bound locs ->
  exists loc, loc ∈ locs /\ ignored loc = false /\ x = (first_line loc, name loc).
Proof.
  intros Hx. apply elem_of_unmarked_report.
  by eapply sublist_subseteq; [apply sweep_rule_sublist|].
Qed.

Lemma sweep_rule_ascending X locs :
  StronglySorted (fun a b => first_line a <= first_line b) locs ->
  forall bound,
    StronglySorted (fun x y => fst x <= fst y) (sweep_rule X bound locs).
Proof.
  induction 1 as [|loc locs Hs IH Hloc]; intros bound; [constructor|].
  cbn [sweep_rule].
  destruct (decide (dead_by_sweep X bound loc)); cbn [app]; [|apply IH].
  constructor; [apply IH|]. apply Forall_forall.
  intros x (l & Hl & _ & ->)%sweep_rule_elem. cbn [fst].
  rewrite Forall_forall in Hloc. by apply Hloc.
Qed.

Lemma unmarked_report_Permutation locs locs' :
  locs ≡ₚ locs' -> unmarked_report locs ≡ₚ unmarked_report locs'.
Proof. intros Hperm. unfold unmarked_report. by rewrite Hperm. Qed.

Section Growth.
Context (fs : filesystem) (fe : frontend).

(** With more C files, the marks of a path can only grow. *)
Lemma linemarks_by_path_mono c_files c_files' by_path by_path' k X :
  c_files ⊆ c_files' ->
  linemarks_by_path fs c_files = Some by_path ->
  linemarks_by_path fs c_files' = Some by_path' ->
  (k, X) ∈ by_path ->
  exists X', (k, X') ∈ by_path' /\ X ⊆ X'.
Proof.
  intros Hsub Hscan Hscan' HX.
  pose proof (linemarks_by_path_marks _ _ _ Hscan k) as Hm.
  pose proof (linemarks_by_path_marks _ _ _ Hscan' k) as Hm'.
  assert (Hgrow : forall n, n ∈ X -> exists X', (k, X') ∈ by_path' /\ n ∈ X').
  { intros n Hn. apply Hm'.
    destruct (proj1 (Hm n)) as (c & text & d & Hc & ?); [by exists X|].
    exists c, text, d. split; [by apply Hsub|done]. }
  assert (k ∈ dict_keys by_path') as [X' HX']%dict_keys_elem.
  { apply (linemarks_by_path_key _ _ _ _ Hscan').
    assert (k ∈ dict_keys by_path) as (? & n & HX0 & Hn)%(linemarks_by_path_key _ _ _ _ Hscan)
      by (by apply (elem_of_dict_keys _ X)).
    rewrite (dict_value_unique _ _ _ _ (linemarks_by_path_NoDup _ _ _ Hscan) HX0 HX) in Hn.
    destruct (Hgrow n Hn) as (X' & ? & ?). by exists X', n. }
  exists X'. split; [done|]. intros n Hn.
  destruct (Hgrow n Hn) as (X'' & HX'' & ?).
  by rewrite (dict_value_unique _ _ _ _ (linemarks_by_path_NoDup _ _ _ Hscan') HX' HX'').
Qed.
End Growth.

(** ** The header must be there *)

Lemma run_Lit_no_prefix s c : ~ (s `prefix_of` rest c) -> run (Lit s) c = [].
Proof.
  revert c. induction s as [|y s IH]; intros c Hno.
  - exfalso. apply Hno. apply prefix_nil.
  - change (run (Lit (y :: s)) c) with (flat_map (run (Lit s)) (run (Chr y) c)).
    destruct c as [p r g]. destruct r as [|x r]; [reflexivity|].
    destruct (decide (y = x)) as [->|Hne].
    + rewrite (run_Chr x r) by done. cbn [flat_map]. rewrite app_nil_r.
      apply IH. cbn [feed rest tail]. intros Hpre. apply Hno. cbn [rest].
      by apply prefix_cons.
    + by rewrite (run_Chr_other y x r).
Qed.

Lemma splitlines_go_no_linebreak s :
  forall after_cr cur,
    Forall (fun y => is_linebreak y = false) cur ->
    Forall (Forall (fun y => is_linebreak y = false)) (splitlines_go after_cr cur s).
Proof.
  induction s as [|y s IH]; intros after_cr cur Hcur.
  - cbn [splitlines_go]. destruct cur; [constructor|].
    constructor; [|constructor]. by apply Forall_rev.
  - cbn [splitlines_go]. destruct (after_cr && (y =? LF)%N); [by apply IH|].
    destruct (is_linebreak y) eqn:Hy.
    + constructor; [by apply Forall_rev|by apply IH].
    + apply IH. by constructor.
Qed.

Lemma for_each_yield_absolute (Path_of_str : list N -> list N)
    (is_absolute : list N -> bool) sources :
  forall yielded,
    for_each (yield_absolute Path_of_str is_absolute) yielded sources
    = if forallb (fun s => is_absolute (Path_of_str s)) sources
      then Some (yielded ++ map Path_of_str sources)
      else None.
Proof.
  induction sources as [|s sources IH]; intros yielded.
  - simpl. by rewrite app_nil_r.
  - cbn [for_each forallb map].
    replace (yield_absolute Path_of_str is_absolute yielded s)
      with (if is_absolute (Path_of_str s)
            then Some (yielded ++ [Path_of_str s]) else None) by reflexivity.
    destruct (is_absolute (Path_of_str s)); [|reflexivity].
    cbn [mbind option_bind andb]. rewrite IH.
    destruct (forallb _ sources); [|reflexivity]. by rewrite <- app_assoc.
Qed.

(** ** The walk through a syntax tree *)

Lemma concat_mapM_cons {A B : Type} (f : A -> option (list B)) x l :
  @concat _ <$> mapM f (x :: l)
  = (y ← f x; ys ← @concat _ <$> mapM f l; Some (y ++ ys)).
Proof.
  cbn [mapM]. destruct (f x) as [y|]; [|done]. cbn [mbind option_bind].
  destruct (mapM f l) as [ys|]; [|done]. reflexivity.
Qed.

Lemma traverse_dml site a stmts :
  traverse_ast (Ast (lit "dml") site [a; Tuple stmts])
  = @concat _ <$> mapM traverse_ast stmts.
Proof.
  induction stmts as [|stmt stmts IH]; [reflexivity|].
  rewrite concat_mapM_cons, <- IH. reflexivity.
Qed.

Lemma traverse_object site a b c stmts :
  traverse_ast (Ast (lit "object") site [a; b; c; Tuple stmts])
  = @concat _ <$> mapM traverse_ast stmts.
Proof.
  induction stmts as [|stmt stmts IH]; [reflexivity|].
  rewrite concat_mapM_cons, <- IH. reflexivity.
Qed.

Lemma traverse_template kind site a body :
  kind ∈ template_kinds ->
  traverse_ast (Ast kind site [a; Tuple body])
  = @concat _ <$> mapM traverse_ast body.
Proof.
  intros Hk. apply (bool_decide_pack _) in Hk.
  unfold template_kinds in Hk.
  assert (kind = lit "template" \/ kind = lit "template_dml12"
          \/ kind = lit "in_each") as [->|[->| ->]].
  { apply bool_decide_unpack in Hk.
    repeat (apply elem_of_cons in Hk as [Hk|Hk]; [by auto|]).
    by apply elem_of_nil in Hk. }
  all: induction body as [|stmt body IH]; [reflexivity|];
    rewrite concat_mapM_cons, <- IH; reflexivity.
Qed.

Lemma traverse_if kind site a t f :
  kind = lit "toplevel_if" \/ kind = lit "hashif" ->
  traverse_ast (Ast kind site [a; Tuple t; Tuple f])
  = (lt ← @concat _ <$> mapM traverse_ast t;
     lf ← @concat _ <$> mapM traverse_ast f;
     Some (lt ++ lf)).
Proof.
  intros [-> | ->].
  - rewrite <- (traverse_dml PyNone PyNone t), <- (traverse_dml PyNone PyNone f).
    reflexivity.
  - rewrite <- (traverse_dml PyNone PyNone t), <- (traverse_dml PyNone PyNone f).
    reflexivity.
Qed.

(** Nodes of the kinds that hold no method yield nothing, whatever they
    hold; nodes of an unknown kind and values that are no nodes raise. *)
Lemma traverse_no_span kind site args :
  kind ∈ no_span_kinds -> traverse_ast (Ast kind site args) = Some [].
Proof.
  intros Hk. cbn [traverse_ast]. unfold kind_in.
  by rewrite bool_decide_eq_true_2.
Qed.

Lemma traverse_unknown kind site args :
  kind ∉ no_span_kinds ->
  kind ∉ map lit ["dml"; "object"; "method"; "sharedmethod"; "toplevel_if";
                  "hashif"]%string ->
  kind ∉ template_kinds ->
  traverse_ast (Ast kind site args) = None.
Proof.
  intros H1 H2 H3. cbn [traverse_ast]. unfold kind_in, kind_is.
  rewrite (bool_decide_eq_false_2 _ H1), (bool_decide_eq_false_2 _ H3).
  rewrite !bool_decide_eq_false_2; [done|..];
    intros ->; apply H2; cbn [map]; set_solver.
Qed.

Lemma any_untyped_formals quads :
  any_untyped (map formal quads) = Some (existsb untyped quads).
Proof.
  induction quads as [|[[[a b] c] typ] quads IH]; [done|].
  cbn [map formal any_untyped existsb]. rewrite IH. cbn [mbind option_bind].
  unfold untyped at 1. cbn [snd]. by destruct typ.
Qed.

Lemma any_error_statements stmts :
  any_error (map statement stmts) = Some (existsb error_statement stmts).
Proof.
  induction stmts as [|[[kind site] args] stmts IH]; [done|].
  cbn [map statement any_error existsb]. unfold error_statement at 1.
  cbn [fst]. by destruct (kind_is kind "error").
Qed.

Lemma traverse_method first last n inp o1 o2 o3 bsite stmts brest a2 a3 more :
  traverse_ast
    (Ast (lit "method") (Site first)
         (PyStr n
          :: Tuple [Tuple inp; o1; o2; o3;
                    Ast (lit "compound") bsite (Tuple stmts :: brest)]
          :: a2 :: a3 :: Site last :: more))
  = (some_untyped ← any_untyped inp;
     poisoned ← any_error stmts;
     Some [Location first last n (some_untyped || poisoned)]).
Proof. reflexivity. Qed.

Lemma traverse_sharedmethod_abstract site n a1 a2 a3 a4 a5 more :
  traverse_ast
    (Ast (lit "sharedmethod") site (n :: a1 :: a2 :: a3 :: a4 :: a5 :: PyNone :: more))
  = Some [].
Proof. reflexivity. Qed.

Lemma traverse_sharedmethod first last n a1 a2 a3 a4 a5 bsite bargs more :
  traverse_ast
    (Ast (lit "sharedmethod") (Site first)
         (PyStr n :: a1 :: a2 :: a3 :: a4 :: a5
          :: Ast (lit "compound") bsite bargs :: Site last :: more))
  = Some [Location first last n false].
Proof. reflexivity. Qed.

Lemma traverse_method_not_compound site n inp o1 o2 o3 bkind bsite bargs a2 a3 rbrace more :
  bkind ≠ lit "compound" ->
  traverse_ast
    (Ast (lit "method") site
         (n :: Tuple [Tuple inp; o1; o2; o3; Ast bkind bsite bargs]
          :: a2 :: a3 :: rbrace :: more))
  = None.
Proof.
  intros Hk.
  assert (is_compound (Ast bkind bsite bargs) = Some false) as Hc.
  { cbn [is_compound]. unfold kind_is. by rewrite bool_decide_eq_false_2. }
  change (traverse_ast _) with
    (some_untyped ← any_untyped inp;
     compound ← is_compound (Ast bkind bsite bargs);
     if (compound : bool) then
       match Ast bkind bsite bargs with
       | Ast _ _ (Tuple stmts :: _) =>
           poisoned ← any_error stmts;
           first ← lineno site;
           last ← lineno rbrace;
           n ← as_str n;
           Some [Location first last n (some_untyped || poisoned)]
       | _ => None
       end
     else None).
  rewrite Hc. by destruct (any_untyped inp).
Qed.

Lemma concat_mapM_app {A B : Type} (f : A -> option (list B)) l1 l2 :
  @concat _ <$> mapM f (l1 ++ l2)
  = (a ← @concat _ <$> mapM f l1; b ← @concat _ <$> mapM f l2; Some (a ++ b)).
Proof.
  induction l1 as [|x l1 IH].
  - simpl app. destruct (@concat _ <$> mapM f l2); reflexivity.
  - simpl app. rewrite !concat_mapM_cons, IH.
    destruct (f x) as [y|]; [|done]. cbn [mbind option_bind].
    destruct (@concat _ <$> mapM f l1) as [a|]; [|done]. cbn [mbind option_bind].
    destruct (@concat _ <$> mapM f l2) as [b|]; [|done]. cbn [mbind option_bind].
    by rewrite app_assoc.
Qed.

Lemma traverse_statements_of w inner :
  statements_of w = Some inner ->
  traverse_ast w = @concat _ <$> mapM traverse_ast inner.
Proof.
  destruct w as [| | | |kind site args]; try done.
  destruct args as [|a [|b [|c [|d [|e args]]]]]; try done.
  - destruct b as [| | |stmts|]; try done. cbn [statements_of].
    destruct (kind_is kind "dml") eqn:Hdml.
    + intros [= <-]. apply bool_decide_eq_true in Hdml as ->. apply traverse_dml.
    + destruct (kind_in kind template_kinds) eqn:Ht; [|done].
      intros [= <-]. apply bool_decide_eq_true in Ht. by apply traverse_template.
  - destruct b as [| | |t|]; try done. destruct c as [| | |f|]; try done.
    cbn [statements_of].
    destruct (kind_is kind "toplevel_if" || kind_is kind "hashif") eqn:Hk; [|done].
    intros [= <-]. rewrite concat_mapM_app. apply traverse_if.
    apply orb_true_iff in Hk as [Hk|Hk]; apply bool_decide_eq_true in Hk;
      [by left|by right].
  - replace (statements_of (Ast kind site [a; b; c; d]))
      with (match d with
            | Tuple stmts => if kind_is kind "object" then Some stmts else None
            | _ => None
            end) by (by destruct b, c, d).
    destruct d as [| | |stmts|]; try done.
    destruct (kind_is kind "object") eqn:Hk; [|done].
    intros [= <-]. apply bool_decide_eq_true in Hk as ->. apply traverse_object.
  - by destruct b, c, d.
Qed.

(** ** The lines that [line_directive_re] matches *)

Lemma elem_of_run_Chr x c m :
  m ∈ run (Chr x) c -> rest c = x :: rest m /\ groups m = groups c.
Proof.
  simpl. unfold next_is. destruct (rest c) as [|y s] eqn:Hc;
    [by intros ?%elem_of_nil|].
  destruct (x =? y)%N eqn:Hxy; [|by intros ?%elem_of_nil].
  apply N.eqb_eq in Hxy as ->.
  intros (y' & Hy & Hg)%elem_of_step. rewrite Hc in Hy. by simplify_eq.
Qed.

Lemma elem_of_run_Lit s :
  forall c m, m ∈ run (Lit s) c -> rest c = s ++ rest m /\ groups m = groups c.
Proof.
  induction s as [|y s IH]; intros c m Hm.
  - apply list_elem_of_singleton in Hm as ->. done.
  - change (run (Lit (y :: s)) c) with (flat_map (run (Lit s)) (run (Chr y) c)) in Hm.
    apply elem_of_flat_map in Hm as (c1 & [H1 G1]%elem_of_run_Chr & [H2 G2]%IH).
    split; [by rewrite H1, H2|congruence].
Qed.

Lemma elem_of_run_Star_Chr x c m :
  m ∈ run (Star (Chr x)) c ->
  exists k, rest c = replicate k x ++ rest m /\ groups m = groups c.
Proof.
  rewrite run_Star. intros Hm.
  apply (star_loop_consumes _ (fun y => y = x)) in Hm as (d & Hd & HP & Hg).
  - exists (length d). split; [|done]. rewrite Hd. f_equal.
    clear Hd. induction HP as [|y d -> _ IH]; [done|]. simpl. by rewrite <- IH.
  - intros c1 m1 [H1 G1]%elem_of_run_Chr. exists [x]. by repeat constructor.
Qed.

Lemma elem_of_run_Star_Dot c m :
  m ∈ run (Star Dot) c ->
  exists w, rest c = w ++ rest m /\ Forall (fun y => y ≠ LF) w
            /\ groups m = groups c.
Proof.
  rewrite run_Star. apply star_loop_consumes.
  intros c1 m1 Hm1. simpl in Hm1. unfold next_is in Hm1.
  destruct (rest c1) as [|y s] eqn:Hc; [by apply elem_of_nil in Hm1|].
  destruct (y =? LF)%N eqn:Hy; [by apply elem_of_nil in Hm1|].
  apply elem_of_step in Hm1 as (y' & Hy' & Hg). rewrite Hc in Hy'. simplify_eq.
  exists [y']. split_and!; [done| |done]. constructor; [|constructor].
  by apply N.eqb_neq.
Qed.

Lemma elem_of_run_Bol c m :
  m ∈ run Bol c -> m = c /\ (prev c = None \/ prev c = Some LF).
Proof.
  simpl. destruct (prev c) as [p|]; [|intros ->%list_elem_of_singleton; auto].
  destruct (p =? LF)%N eqn:Hp; [|by intros ?%elem_of_nil].
  apply N.eqb_eq in Hp as ->. intros ->%list_elem_of_singleton. auto.
Qed.

Lemma elem_of_run_Eol c m :
  m ∈ run Eol c -> m = c /\ (rest c = [] \/ exists t, rest c = LF :: t).
Proof.
  simpl. destruct (rest c) as [|y s]; [intros ->%list_elem_of_singleton; auto|].
  destruct (y =? LF)%N eqn:Hy; [|by intros ?%elem_of_nil].
  apply N.eqb_eq in Hy as ->. intros ->%list_elem_of_singleton. eauto.
Qed.

(** What a match of [line_directive_re] has read, and what it holds. *)
Lemma line_directive_sound c m :
  groups c = [] ->
  m ∈ run line_directive_re c ->
  (prev c = None \/ prev c = Some LF)
  /\ exists k d f,
       d ≠ [] /\ Forall is_digit d /\ Forall (fun y => y ≠ LF) f
       /\ rest c = directive_text k d f ++ rest m
       /\ (rest m = [] \/ exists t, rest m = LF :: t)
       /\ group 1 m = Some d /\ group 2 m = Some f.
Proof.
  intros Hg0. unfold line_directive_re.
  intros (c1 & [-> Hbol]%elem_of_run_Bol & Hm)%elem_of_run_Seq_cons.
  apply elem_of_run_Seq_cons in Hm as (c2 & (k & H2 & G2)%elem_of_run_Star_Chr & Hm).
  apply elem_of_run_Seq_cons in Hm as (c3 & [H3 G3]%elem_of_run_Lit & Hm).
  apply elem_of_run_Seq_cons in Hm as (c4 & (c4' & H4 & R4 & G4)%elem_of_run_Group & Hm).
  apply run_Plus_digits in H4 as (d & Hd & Hne & Hdig & G4').
  apply elem_of_run_Seq_cons in Hm as (c5 & [H5 G5]%elem_of_run_Chr & Hm).
  apply elem_of_run_Seq_cons in Hm as (c6 & [H6 G6]%elem_of_run_Chr & Hm).
  apply elem_of_run_Seq_cons in Hm as (c7 & (c7' & H7 & R7 & G7)%elem_of_run_Group & Hm).
  apply elem_of_run_Star_Dot in H7 as (w & Hw & Hlf & G7').
  apply elem_of_run_Seq_cons in Hm as (c8 & [H8 G8]%elem_of_run_Chr & Hm).
  apply elem_of_run_Seq_cons in Hm as (c9 & [-> Heol]%elem_of_run_Eol & Hm).
  rewrite run_Seq_nil in Hm. apply list_elem_of_singleton in Hm as ->.
  split; [done|]. exists k, d, w. split_and!; [done..| |done| |].
  - unfold directive_text. rewrite H2, H3, Hd, <- R4, H5, H6, Hw, <- R7, H8.
    by rewrite <- !app_assoc.
  - unfold group. rewrite G8, G7, G7', G6, G5, G4, G4', G3, G2, Hg0.
    by rewrite (consumed_prefix _ _ _ Hd).
  - unfold group. rewrite G8, G7. by rewrite (consumed_prefix _ _ _ Hw).
Qed.

(** Reading one character at a time, a greedy repetition can read any
    text of the class. *)
Lemma star_loop_reads (body : cursor -> list cursor) (P : N -> Prop) :
  (forall c y t, P y -> rest c = y :: t -> feed [y] c ∈ body c) ->
  forall w c fuel t,
    Forall P w -> rest c = w ++ t -> (length w <= fuel)%nat ->
    feed w c ∈ star_loop body fuel c.
Proof.
  intros Hbody. induction w as [|y w IH]; intros c fuel t HP Hc Hfuel.
  - destruct fuel; [by left|]. rewrite star_loop_S. apply elem_of_app. right. by left.
  - apply Forall_cons in HP as [Hy HP].
    destruct fuel as [|fuel]; [simpl in Hfuel; lia|].
    rewrite star_loop_S. apply elem_of_app. left.
    apply elem_of_flat_map. exists (feed [y] c). split; [by eapply Hbody|].
    assert (rest (feed [y] c) = w ++ t) as Hc1 by (by apply rest_feed; rewrite Hc).
    rewrite Hc1, Hc.
    replace (length (w ++ t) <? length ((y :: w) ++ t))%nat
      with true by (symmetry; apply Nat.ltb_lt; simpl; lia).
    apply (IH _ _ t); [done..|simpl in Hfuel; lia].
Qed.

Lemma run_Range_digit y t c :
  is_digit y -> rest c = y :: t -> feed [y] c ∈ run (Range 48 57) c.
Proof.
  destruct c as [p r g]. simpl. intros [Hlo Hhi] ->. unfold next_is, step. simpl.
  apply N.leb_le in Hlo, Hhi. rewrite Hlo, Hhi. by left.
Qed.

Lemma run_Star_reads r (P : N -> Prop) w t c :
  (forall c y t, P y -> rest c = y :: t -> feed [y] c ∈ run r c) ->
  Forall P w -> rest c = w ++ t -> feed w c ∈ run (Star r) c.
Proof.
  intros Hr HP Hc. rewrite run_Star.
  apply (star_loop_reads _ P Hr w c _ t HP Hc).
  rewrite Hc, length_app. lia.
Qed.

Lemma elem_of_singleton_eq {A : Type} (x : A) l : l = [x] -> x ∈ l.
Proof. intros ->. by left. Qed.

Lemma run_Eol_here c :
  rest c = [] \/ (exists t, rest c = LF :: t) -> c ∈ run Eol c.
Proof. simpl. intros [->|[t ->]]; by left. Qed.

(** A directive at the start of a line is matched. *)
Lemma line_directive_complete k d f after c :
  (prev c = None \/ prev c = Some LF) ->
  d ≠ [] -> Forall is_digit d -> Forall (fun y => y ≠ LF) f ->
  after = [] \/ (exists t, after = LF :: t) ->
  rest c = directive_text k d f ++ after ->
  exists m, m ∈ run line_directive_re c.
Proof.
  intros Hbol Hne Hd Hf Hafter Hc. unfold directive_text in Hc.
  rewrite <- !app_assoc in Hc.
  unfold line_directive_re.
  eexists. apply elem_of_run_Seq_cons. exists c. split.
  { simpl. destruct Hbol as [->| ->]; by left. }
  apply elem_of_run_Seq_cons. eexists. split.
  { eapply (run_Star_reads _ (fun y => y = 32%N) (replicate k 32%N));
      [|by apply Forall_replicate|exact Hc].
    intros c0 y t -> H0. by apply elem_of_singleton_eq, (run_Chr _ t). }
  apply rest_feed in Hc.
  apply elem_of_run_Seq_cons. eexists. split.
  { by apply elem_of_singleton_eq, (run_Lit _ _ _ Hc). }
  apply rest_feed in Hc.
  set (c3 := feed (lit "#line ") _) in *.
  destruct d as [|y d]; [done|]. apply Forall_cons in Hd as [Hy Hd].
  assert (feed (y :: d) c3 ∈ run (Plus (Range 48 57)) c3) as Hplus.
  { unfold Plus. rewrite run_Cat. apply elem_of_flat_map.
    exists (feed [y] c3). split; [by eapply run_Range_digit|].
    change (feed (y :: d) c3) with (feed d (feed [y] c3)).
    eapply (run_Star_reads _ is_digit); [|done|].
    - intros ? ? ?. apply run_Range_digit.
    - by apply rest_feed; rewrite Hc. }
  apply elem_of_run_Seq_cons. eexists. split.
  { rewrite run_Group. apply list_elem_of_fmap. eexists. split; [reflexivity|exact Hplus]. }
  apply (rest_feed (y :: d)) in Hc.
  set (c4 := capture 1 c3 _).
  assert (rest c4 = 32%N :: 34%N :: f ++ 34%N :: after) as Hc4 by exact Hc.
  apply elem_of_run_Seq_cons. eexists. split.
  { by apply elem_of_singleton_eq, (run_Chr _ _ _ Hc4). }
  apply (rest_feed [32%N]) in Hc4.
  apply elem_of_run_Seq_cons. eexists. split.
  { by apply elem_of_singleton_eq, (run_Chr _ _ _ Hc4). }
  apply (rest_feed [34%N]) in Hc4.
  set (c6 := feed [34%N] _) in *.
  apply elem_of_run_Seq_cons. eexists. split.
  { rewrite run_Group. apply list_elem_of_fmap. eexists. split; [reflexivity|].
    eapply (run_Star_reads _ (fun y => y ≠ LF) f); [|done|exact Hc4].
    intros c0 y0 t0 Hy0 H0. by apply elem_of_singleton_eq, (run_Dot _ t0). }
  apply rest_feed in Hc4.
  set (c7 := capture 2 c6 _).
  assert (rest c7 = 34%N :: after) as Hc7 by exact Hc4.
  apply elem_of_run_Seq_cons. eexists. split.
  { by apply elem_of_singleton_eq, (run_Chr _ _ _ Hc7). }
  apply (rest_feed [34%N]) in Hc7.
  apply elem_of_run_Seq_cons. eexists. split.
  { apply run_Eol_here. by rewrite Hc7. }
  rewrite run_Seq_nil. by left.
Qed.

(** A text is cut at its first LF in one way only. *)
Lemma first_LF_unique (u u' r r' : list N) :
  Forall (fun y => y ≠ LF) u -> Forall (fun y => y ≠ LF) u' ->
  r = [] \/ (exists t, r = LF :: t) ->
  r' = [] \/ (exists t, r' = LF :: t) ->
  u ++ r = u' ++ r' -> u = u' /\ r = r'.
Proof.
  intros Hu. revert u'. induction Hu as [|y u Hy Hu IH]; intros u' Hu' Hr Hr' Heq.
  - destruct Hu' as [|y' u' Hy' Hu']; [done|].
    simpl in Heq. destruct Hr as [->|[t ->]]; [done|]. by simplify_eq.
  - destruct Hu' as [|y' u' Hy' Hu'].
    + simpl in Heq. destruct Hr' as [->|[t ->]]; [done|]. by simplify_eq.
    + simpl in Heq. simplify_eq. destruct (IH u' Hu' Hr Hr') as [-> ->]; done.
Qed.

Lemma directive_text_no_LF k d f :
  Forall is_digit d -> Forall (fun y => y ≠ LF) f ->
  Forall (fun y => y ≠ LF) (directive_text k d f).
Proof.
  intros Hd Hf. unfold directive_text. rewrite !Forall_app. split_and!.
  - by apply Forall_replicate.
  - by repeat constructor.
  - eapply Forall_impl; [exact Hd|]. intros y [Hlo _] ->. done.
  - by repeat constructor.
  - done.
  - by repeat constructor.
Qed.

Lemma digits_then_space_inj d d' (t t' : list N) :
  Forall is_digit d -> Forall is_digit d' ->
  d ++ 32%N :: t = d' ++ 32%N :: t' -> d = d' /\ t = t'.
Proof.
  intros Hd. revert d'. induction Hd as [|y d Hy Hd IH]; intros d' Hd' Heq.
  - destruct Hd' as [|y' d' [Hlo' _] _]; simpl in Heq; by simplify_eq.
  - destruct Hd' as [|y' d' Hy' Hd']; simpl in Heq; injection Heq as -> Heq.
    + by destruct Hy as [Hlo _].
    + by destruct (IH d' Hd' Heq) as [-> ->].
Qed.

(** The text of a directive tells its indentation, number and file. *)
Lemma directive_text_inj k d f k' d' f' :
  Forall is_digit d -> Forall is_digit d' ->
  directive_text k d f = directive_text k' d' f' ->
  k = k' /\ d = d' /\ f = f'.
Proof.
  intros Hd Hd'. unfold directive_text. revert k'.
  induction k as [|k IH]; intros [|k'] Heq; try done.
  - split; [done|]. cbn [replicate app] in Heq.
    apply (app_inv_head (lit "#line ")) in Heq. cbn [app] in Heq.
    apply digits_then_space_inj in Heq as [-> Heq]; [|done..].
    split; [done|]. injection Heq as Heq. by apply app_inv_tail in Heq.
  - cbn [replicate app] in Heq. injection Heq as Heq.
    by destruct (IH k' Heq) as (-> & -> & ->).
Qed.

(** The first match at the start of a directive line. *)
Lemma run_directive_line k d f after p :
  p = None \/ p = Some LF ->
  d ≠ [] -> Forall is_digit d -> Forall (fun y => y ≠ LF) f ->
  after = [] \/ (exists t, after = LF :: t) ->
  exists m ms,
    run line_directive_re (Cursor p (directive_text k d f ++ after) []) = m :: ms
    /\ rest m = after /\ group 1 m = Some d /\ group 2 m = Some f.
Proof.
  intros Hp Hne Hd Hf Hafter.
  set (c := Cursor p _ []).
  destruct (line_directive_complete k d f after c) as [m0 Hm0]; try done.
  destruct (run line_directive_re c) as [|m ms] eqn:Hrun;
    [by apply elem_of_nil in Hm0|].
  exists m, ms. split; [done|].
  assert (m ∈ run line_directive_re c) as Hm by (rewrite Hrun; by left).
  apply line_directive_sound in Hm as (_ & k' & d' & f' & Hne' & Hd' & Hf' & Hc & Hr & G1 & G2);
    [|done].
  simpl in Hc.
  apply first_LF_unique in Hc as [Heq Hr']; [|by apply directive_text_no_LF..|done|done].
  apply directive_text_inj in Heq as (-> & -> & ->); done.
Qed.

(** No match at the start of another line. *)
Lemma run_other_line line after p :
  Forall (fun y => y ≠ LF) line ->
  (forall k d f, d ≠ [] -> Forall is_digit d -> line ≠ directive_text k d f) ->
  after = [] \/ (exists t, after = LF :: t) ->
  run line_directive_re (Cursor p (line ++ after) []) = [].
Proof.
  intros Hline Hnot Hafter.
  destruct (run line_directive_re _) as [|m ms] eqn:Hrun; [done|].
  assert (m ∈ run line_directive_re (Cursor p (line ++ after) [])) as Hm
    by (rewrite Hrun; by left).
  apply line_directive_sound in Hm as (_ & k' & d' & f' & Hne' & Hd' & Hf' & Hc & Hr & G1 & G2);
    [|done].
  simpl in Hc.
  apply first_LF_unique in Hc as [Heq Hr']; [|done|by apply directive_text_no_LF|done|done].
  by destruct (Hnot k' d' f').
Qed.

(** No match inside a line. *)
Lemma run_inside_line y s :
  y ≠ LF -> run line_directive_re (Cursor (Some y) s []) = [].
Proof.
  intros Hy. unfold line_directive_re. rewrite run_Seq_cons. simpl run at 2.
  by apply N.eqb_neq in Hy as ->.
Qed.

Lemma finditer_inside_line u :
  forall y after,
    y ≠ LF -> Forall (fun y => y ≠ LF) u ->
    after = [] \/ (exists t, after = LF :: t) ->
    finditer_from line_directive_re 0 (Some y) (u ++ after)
    = match after with
      | [] => []
      | _ :: t => finditer_from line_directive_re 0 (Some LF) t
      end.
Proof.
  induction u as [|z u IH]; intros y after Hy Hu Hafter.
  - simpl app. destruct Hafter as [->|[t ->]].
    + cbn [finditer_from]. by rewrite run_inside_line.
    + cbn [finditer_from]. by rewrite run_inside_line.
  - apply Forall_cons in Hu as [Hz Hu]. simpl app.
    cbn [finditer_from]. rewrite run_inside_line by done.
    by apply IH.
Qed.


Lemma finditer_skip r u :
  forall y s,
    finditer_from r (length u) (Some y) (u ++ s)
    = finditer_from r 0 (last (y :: u)) s.
Proof.
  induction u as [|z u IH]; intros y s; [done|].
  rewrite last_cons_cons. simpl length. simpl app.
  destruct s; cbn [finditer_from]; apply IH.
Qed.

Lemma directive_text_snoc k d f :
  directive_text k d f
  = (replicate k 32%N ++ lit "#line " ++ d ++ [32%N; 34%N] ++ f) ++ [34%N].
Proof. unfold directive_text. by rewrite <- !app_assoc. Qed.

Lemma directive_text_nonempty k d f : directive_text k d f ≠ [].
Proof. rewrite directive_text_snoc. by intros [_ ?]%app_eq_nil. Qed.

Lemma join_lines_cons (l : list N) ls :
  join_lines (l :: ls)
  = l ++ match ls with [] => [] | _ :: _ => LF :: join_lines ls end.
Proof. destruct ls; simpl; [by rewrite app_nil_r|done]. Qed.

(** What the scan of one line gives, and where it goes on. *)
Lemma finditer_line l after p :
  p = None \/ p = Some LF ->
  c_line_ok l ->
  after = [] \/ (exists t, after = LF :: t) ->
  omap directive_of (finditer_from line_directive_re 0 p (render l ++ after))
  = option_list (directive_of_line l)
    ++ match after with
       | [] => []
       | _ :: t => omap directive_of (finditer_from line_directive_re 0 (Some LF) t)
       end.
Proof.
  intros Hp Hok Hafter. destruct l as [k d f|line]; simpl render.
  - destruct Hok as (Hne & Hd & Hf).
    destruct (run_directive_line k d f after p) as (m & ms & Hrun & Hrest & G1 & G2);
      try done.
    pose proof (directive_text_snoc k d f) as Hsnoc.
    destruct (directive_text k d f) as [|y u] eqn:Htext;
      [by apply directive_text_nonempty in Htext|].
    simpl app in *. cbn [finditer_from]. rewrite Hrun, Hrest.
    replace (pred (length (y :: u ++ after) - length after)) with (length u)
      by (simpl; rewrite length_app; lia).
    rewrite finditer_skip, Hsnoc, last_snoc.
    change after with ([] ++ after) at 1.
    rewrite (finditer_inside_line [] 34%N after) by done.
    change (omap directive_of (m :: ?l))
      with (match directive_of m with Some x => x :: omap directive_of l
                                  | None => omap directive_of l end).
    unfold directive_of. rewrite G1, G2. simpl.
    destruct (int_digits d Hne Hd) as [n ->]. simpl.
    by destruct Hafter as [->|[t ->]].
  - destruct Hok as [Hline Hnot]. simpl.
    pose proof (run_other_line line after p Hline Hnot Hafter) as Hrun.
    destruct line as [|y u].
    + simpl app in *.
      destruct Hafter as [->|[t ->]]; cbn [finditer_from]; by rewrite Hrun.
    + apply Forall_cons in Hline as [Hy Hu]. simpl app in *.
      cbn [finditer_from]. rewrite Hrun.
      rewrite finditer_inside_line by done. by destruct Hafter as [->|[t ->]].
Qed.

(** The directives of a text are those of its directive lines. *)
Lemma directives_join_lines ls :
  Forall c_line_ok ls ->
  forall p, p = None \/ p = Some LF ->
  omap directive_of
    (finditer_from line_directive_re 0 p (join_lines (map render ls)))
  = omap directive_of_line ls.
Proof.
  induction 1 as [|l ls Hl Hls IH]; intros p Hp.
  - cbn [map join_lines finditer_from].
    pose proof (run_other_line [] [] p) as Hrun. simpl app in Hrun.
    rewrite Hrun; [done|done| |by left].
    intros k d f _ _ Heq. by apply (directive_text_nonempty k d f).
  - cbn [map]. rewrite join_lines_cons.
    rewrite finditer_line; [|done|done|].
    + change (omap directive_of_line (l :: ls))
        with (match directive_of_line l with
              | Some x => x :: omap directive_of_line ls
              | None => omap directive_of_line ls
              end).
      destruct ls as [|l' ls]; cbn [map].
      * by destruct (directive_of_line l).
      * rewrite IH by (by right).
        by destruct (directive_of_line l).
    + destruct (map render ls); eauto.
Qed.

(** * The claims *)

(** A closed decidable proposition, settled by evaluation. *)
Ltac decide_ground := apply (bool_decide_unpack _); vm_compute; exact I.

(** C1 (sweep correctness).  For a source file in the requested scope
    whose method locations are (1,5,a), (6,10,b), (11,20,c), none of them
    ignored, and whose accumulated line marks are 3 and 7, the entry of
    the dead-method report for that file is exactly [(11, c)]: a and b
    are live, c is dead. *)
Theorem C1_sweep_example fs fe c_files dml_files by_path f dead skipped :
  find_dead_methods fs fe c_files dml_files = Some (dead, skipped) ->
  linemarks_by_path fs c_files = Some by_path ->
  dict_get f by_path = Some {[3; 7]} ->
  f ∈ dml_files ->
  method_locations fs fe f
  = Some [ Location 1 5 (lit "a") false; Location 6 10 (lit "b") false;
           Location 11 20 (lit "c") false ] ->
  dead !! f = Some [(11, lit "c")].
Proof.
  intros Hrun Hscan Hmarks Hscope Hlocs.
  destruct (find_dead_methods_spec _ _ _ _ _ _ Hrun)
    as (by_path' & Hscan' & _ & _ & Hin & _).
  rewrite Hscan in Hscan'. simplify_eq.
  destruct (Hin f _ (dict_get_Some_elem _ _ _ Hmarks) Hscope)
    as (locs & r & Hlocs' & Hr & ->).
  rewrite Hlocs in Hlocs'. simplify_eq.
  vm_compute in Hr. by simplify_eq.
Qed.

Lemma C1_sweep_example_witness :
  find_dead_methods Sample.fs Sample.fe Sample.c_files Sample.dml_files
  = Some (Sample.dead, Sample.skipped)
  /\ Sample.dead !! lit "/src/dev.dml" = Some [(11, lit "c")].
Proof.
  split; [vm_compute; reflexivity|].
  apply (C1_sweep_example Sample.fs Sample.fe Sample.c_files Sample.dml_files
           Sample.by_path (lit "/src/dev.dml") Sample.dead Sample.skipped);
    try (vm_compute; reflexivity).
  decide_ground.
Defined.

(** C2 (dead means no mark inside the span).  The sweep does not decide
    that: in the build [Gap] the only method spans lines 10 to 20 and is
    not ignored, the only mark is line 5, outside the span, and the
    method is not reported. *)
Theorem C2_mark_before_span_keeps_method_alive :
  linemarks_by_path Gap.fs [lit "/o/gap-dml.c"]
  = Some [(lit "/src/gap.dml", {[5]})]
  /\ method_locations Gap.fs Gap.fe (lit "/src/gap.dml")
     = Some [Location 10 20 (lit "a") false]
  /\ ~ (10 <= 5 <= 20)
  /\ find_dead_methods Gap.fs Gap.fe [lit "/o/gap-dml.c"] [lit "/src/gap.dml"]
     = Some (∅, []).
Proof. split_and!; [vm_compute; reflexivity..|lia|vm_compute; reflexivity]. Qed.

(** C3 (self-reference exclusion).  The directive of [Relative] resolves
    to the canonical path of the C file that holds it, yet it is counted:
    the comparison is with the path as it was given, here a relative
    one. *)
Theorem C3_self_reference_of_relative_artifact :
  resolve Relative.fs
    (joinpath Relative.fs (parent Relative.fs (lit "dev-dml.c")) (lit "dev-dml.c"))
  = resolve Relative.fs (lit "dev-dml.c")
  /\ linemarks_by_path Relative.fs [lit "dev-dml.c"]
     = Some [(lit "/w/dev-dml.c", {[4711]})]
  /\ find_dead_methods Relative.fs Relative.fe [lit "dev-dml.c"] []
     = Some (∅, [lit "/w/dev-dml.c"]).
Proof. split_and!; vm_compute; reflexivity. Qed.

(** C4 (zero-marker totality).  A source file that is in the requested
    scope and absent from the marker mapping gets as its report the
    (first line, name) pairs of exactly its locations that are not
    ignored: every such location is reported, and every reported pair
    comes from such a location, so that an ignored one contributes
    nothing. *)
Theorem C4_zero_marker_totality fs fe c_files dml_files by_path f dead skipped :
  find_dead_methods fs fe c_files dml_files = Some (dead, skipped) ->
  linemarks_by_path fs c_files = Some by_path ->
  f ∈ dml_files ->
  f ∉ dict_keys by_path ->
  exists locs rep,
    method_locations fs fe f = Some locs
    /\ dead !! f = Some rep
    /\ rep = map (fun l => (first_line l, name l))
               (filter (fun l => ignored l = false) locs)
    /\ (forall loc, loc ∈ locs -> ignored loc = false ->
                    (first_line loc, name loc) ∈ rep)
    /\ (forall x, x ∈ rep ->
                  exists loc, loc ∈ locs /\ ignored loc = false
                              /\ x = (first_line loc, name loc)).
Proof.
  intros Hrun Hscan Hscope Hkey.
  destruct (find_dead_methods_spec _ _ _ _ _ _ Hrun)
    as (by_path' & Hscan' & _ & _ & _ & Hout & _).
  rewrite Hscan in Hscan'. simplify_eq.
  destruct (Hout f Hscope Hkey) as (locs & Hlocs & Hd).
  exists locs, (unmarked_report locs). split_and!; [done..| |].
  - intros loc Hin Hi. apply elem_of_unmarked_report. eauto.
  - intros x Hx. by apply elem_of_unmarked_report.
Qed.

Lemma C4_zero_marker_totality_witness :
  exists locs rep,
    method_locations Sample.fs Sample.fe (lit "/src/none.dml") = Some locs
    /\ Sample.dead !! lit "/src/none.dml" = Some rep
    /\ rep = map (fun l => (first_line l, name l))
               (filter (fun l => ignored l = false) locs)
    /\ (forall loc, loc ∈ locs -> ignored loc = false ->
                    (first_line loc, name loc) ∈ rep)
    /\ (forall x, x ∈ rep ->
                  exists loc, loc ∈ locs /\ ignored loc = false
                              /\ x = (first_line loc, name loc)).
Proof.
  apply (C4_zero_marker_totality Sample.fs Sample.fe Sample.c_files
           Sample.dml_files Sample.by_path (lit "/src/none.dml")
           Sample.dead Sample.skipped);
    try (vm_compute; reflexivity).
  - decide_ground.
  - decide_ground.
Defined.

(** C5 (boundary).  When the smallest mark not yet consumed is exactly the
    last line of a location, the sweep leaves [dead] as it is: the method
    is live, the comparison being [mark <= last_line]. *)
Theorem C5_boundary_is_live f n unconsumed dead loc :
  last_line loc = n ->
  Inf ∈ unconsumed ->
  exists unconsumed',
    sweep_step f (Line n :: unconsumed, dead) loc = Some (unconsumed', dead).
Proof.
  intros Hlast Hinf.
  destruct (advance_Inf unconsumed (last_line loc) Hinf) as (u' & Hadv & _).
  exists u'. unfold sweep_step. cbn [head mbind option_bind advance mark_le mark_gt].
  rewrite Hlast.
  replace (n <=? n) with true by (symmetry; apply Z.leb_refl).
  replace (n <? n) with false by (symmetry; apply Z.ltb_irrefl).
  rewrite Hlast in Hadv. rewrite Hadv. reflexivity.
Qed.

Lemma C5_boundary_is_live_witness :
  exists unconsumed',
    sweep_step (lit "/src/dev.dml") (Line 5 :: [Line 7; Inf], ∅)
               (Location 1 5 (lit "a") false)
    = Some (unconsumed', ∅).
Proof.
  apply (C5_boundary_is_live (lit "/src/dev.dml") 5 [Line 7; Inf] ∅
           (Location 1 5 (lit "a") false)).
  - reflexivity.
  - right. by left.
Defined.

(** C6 (dialect degradation).  For a source file whose declared version
    is DML 1.2, [method_locations] returns the locations of the syntax
    tree with every [ignored] flag set, and the dead-method report for
    that file is empty whatever the marks are: the file has no entry, or
    (when no mark points into it) an empty one. *)
Theorem C6_dml12_never_dead fs fe c_files dml_files f text dead skipped :
  read_text fs f = Some text ->
  determine_version fe text f = Some (1, 2) ->
  find_dead_methods fs fe c_files dml_files = Some (dead, skipped) ->
  method_locations fs fe f
  = map (fun l => Location (first_line l) (last_line l) (name l) true)
      <$> (parse_file fe f ≫= traverse_ast)
  /\ (forall locs, method_locations fs fe f = Some locs ->
                   Forall (fun loc => ignored loc = true) locs)
  /\ (dead !! f = None \/ dead !! f = Some []).
Proof.
  intros Htext Hversion Hrun.
  pose proof (method_locations_dml12 _ _ _ _ Htext Hversion) as Hml.
  assert (Hall : forall locs, method_locations fs fe f = Some locs ->
                              Forall (fun loc => ignored loc = true) locs).
  { intros locs Hlocs. rewrite Hml in Hlocs.
    destruct (parse_file fe f ≫= traverse_ast) as [locs0|]; [|done].
    cbn in Hlocs. simplify_eq. apply Forall_forall.
    intros loc (l & -> & _)%list_elem_of_fmap. done. }
  split_and!; [done..|].
  destruct (find_dead_methods_spec _ _ _ _ _ _ Hrun)
    as (by_path & _ & _ & _ & Hin & Hout & Hno).
  destruct (decide (f ∈ dml_files)) as [Hscope|Hscope]; [|left; by apply Hno].
  destruct (decide (f ∈ dict_keys by_path)) as [Hkey|Hkey].
  - apply dict_keys_elem in Hkey as [X HX].
    destruct (Hin f X HX Hscope) as (locs & r & Hlocs & Hr & ->).
    left. apply report_all_ignored in Hr as ->; [done|].
    apply Forall_forall. intros loc Hloc%elem_of_sorted.
    specialize (Hall locs Hlocs). rewrite Forall_forall in Hall. by apply Hall.
  - destruct (Hout f Hscope Hkey) as (locs & Hlocs & ->).
    right. f_equal. by apply unmarked_report_all_ignored, Hall.
Qed.

Lemma C6_dml12_never_dead_witness :
  method_locations Sample.fs Sample.fe (lit "/src/old.dml")
  = map (fun l => Location (first_line l) (last_line l) (name l) true)
      <$> (parse_file Sample.fe (lit "/src/old.dml") ≫= traverse_ast)
  /\ (forall locs,
        method_locations Sample.fs Sample.fe (lit "/src/old.dml") = Some locs ->
        Forall (fun loc => ignored loc = true) locs)
  /\ (Sample.dead !! lit "/src/old.dml" = None
      \/ Sample.dead !! lit "/src/old.dml" = Some []).
Proof.
  apply (C6_dml12_never_dead Sample.fs Sample.fe Sample.c_files
           Sample.dml_files (lit "/src/old.dml") (lit "dml 1.2;")
           Sample.dead Sample.skipped);
    vm_compute; reflexivity.
Defined.

(** C7 (exclusion respected).  Whatever [find_dead_methods] is given,
    every pair it reports for a file is the (first line, name) of a
    location of that file whose [ignored] flag is false; an ignored
    location is never what puts a pair in the report, in the sweep as in
    the files without marks. *)
Theorem C7_ignored_never_reported fs fe c_files dml_files f rep x dead skipped :
  find_dead_methods fs fe c_files dml_files = Some (dead, skipped) ->
  dead !! f = Some rep ->
  x ∈ rep ->
  exists locs loc,
    method_locations fs fe f = Some locs
    /\ loc ∈ locs /\ ignored loc = false
    /\ x = (first_line loc, name loc).
Proof.
  intros Hrun Hrep Hx.
  destruct (find_dead_methods_spec _ _ _ _ _ _ Hrun)
    as (by_path & _ & _ & _ & Hin & Hout & Hno).
  destruct (decide (f ∈ dml_files)) as [Hscope|Hscope];
    [|rewrite Hno in Hrep; done].
  destruct (decide (f ∈ dict_keys by_path)) as [Hkey|Hkey].
  - apply dict_keys_elem in Hkey as [X HX].
    destruct (Hin f X HX Hscope) as (locs & r & Hlocs & Hr & Hd).
    rewrite Hd in Hrep. destruct r as [|y r]; [done|]. simplify_eq.
    destruct (report_elem _ _ _ _ Hr Hx) as (loc & Hloc%elem_of_sorted & ? & ?).
    by exists locs, loc.
  - destruct (Hout f Hscope Hkey) as (locs & Hlocs & Hd).
    rewrite Hd in Hrep. simplify_eq.
    apply elem_of_unmarked_report in Hx as (loc & ? & ? & ?).
    by exists locs, loc.
Qed.

Lemma C7_ignored_never_reported_witness :
  exists locs loc,
    method_locations Sample.fs Sample.fe (lit "/src/none.dml") = Some locs
    /\ loc ∈ locs /\ ignored loc = false
    /\ (1, lit "p") = (first_line loc, name loc).
Proof.
  apply (C7_ignored_never_reported Sample.fs Sample.fe Sample.c_files
           Sample.dml_files (lit "/src/none.dml") [(1, lit "p")] (1, lit "p")
           Sample.dead Sample.skipped);
    try (vm_compute; reflexivity).
  by left.
Defined.

(** C8 (round trip of the header), as amended.  For a text that begins
    with a well-formed header block listing N source paths, none of which
    holds a character that [str.splitlines] takes for a line boundary,
    [dml_sources_from_body] returns exactly those N paths, in the listed
    order and unchanged. *)
Theorem C8_header_round_trip paths tail :
  Forall (Forall (fun y => is_linebreak y = false)) paths ->
  dml_sources_from_body (header_block paths ++ tail) = Some paths.
Proof.
  intros Hps. unfold dml_sources_from_body.
  destruct (header_match paths tail) as (m & -> & Hg).
  { eapply Forall_impl; [exact Hps|]. intros p Hp.
    eapply Forall_impl; [exact Hp|]. apply is_linebreak_LF. }
  cbn [mbind option_bind]. rewrite Hg. cbn [mbind option_bind].
  rewrite splitlines_header_lines by done. f_equal.
  rewrite map_map. clear. induction paths as [|p paths IH]; [done|].
  cbn [map]. by rewrite IH.
Qed.

Lemma C8_header_round_trip_witness :
  dml_sources_from_body
    (header_block [lit "/a/b.dml"; lit "/c/d.dml"] ++ lit "
blah blah")
  = Some [lit "/a/b.dml"; lit "/c/d.dml"].
Proof.
  apply (C8_header_round_trip [lit "/a/b.dml"; lit "/c/d.dml"]).
  repeat constructor.
Defined.

(** C8 as stated fails: a path may hold a carriage return, which [.] of
    the header regex accepts and [splitlines] takes for the end of a
    line.  The header that lists the one path [/a], CR, [b.dml] yields
    the two paths [/a] and the empty string. *)
Lemma C8_path_with_carriage_return :
  let path := lit "/a" ++ [CR] ++ lit "b.dml" in
  Forall (fun y => y ≠ LF) path
  /\ dml_sources_from_body (header_block [path]) = Some [lit "/a"; []]
  /\ dml_sources_from_body (header_block [path]) ≠ Some [path].
Proof.
  split_and!.
  - repeat constructor; by intros [=].
  - vm_compute. reflexivity.
  - vm_compute. by intros [=].
Qed.

(** C9 (determinism).  [find_dead_methods] gives the same result for the
    same two sets, in whatever order their elements are met: the C files
    are sorted by path before they are read, membership in [dml_files]
    does not depend on an order, and the entries that the last loop adds
    to [dead] commute. *)
Theorem C9_determinism fs fe c_files c_files' dml_files dml_files' :
  c_files ≡ₚ c_files' ->
  dml_files ≡ₚ dml_files' ->
  find_dead_methods fs fe c_files dml_files
  = find_dead_methods fs fe c_files' dml_files'.
Proof.
  intros Hc Hd. unfold find_dead_methods, linemarks_by_path.
  rewrite (sorted_paths_Permutation _ _ Hc).
  destruct (for_each (scan_c_file fs) [] (sorted path_ltb c_files'))
    as [by_path|]; [|done].
  cbn [mbind option_bind].
  rewrite (for_each_ext _ (correlate fs fe dml_files'))
    by (intros; by apply correlate_Permutation).
  destruct (for_each (correlate fs fe dml_files') (∅, []) by_path)
    as [[dead skipped]|]; [|done].
  cbn [mbind option_bind].
  rewrite (all_dead_Permutation fs fe _
             (filter (fun p => p ∉ dict_keys by_path) dml_files')); [done|].
  by apply filter_Permutation.
Qed.

Lemma C9_determinism_witness :
  find_dead_methods Sample.fs Sample.fe
    [lit "/o/dev-dml.c"; lit "/o/aux-dml.c"]
    [lit "/src/dev.dml"; lit "/src/none.dml"]
  = find_dead_methods Sample.fs Sample.fe
      [lit "/o/aux-dml.c"; lit "/o/dev-dml.c"]
      [lit "/src/none.dml"; lit "/src/dev.dml"].
Proof.
  apply C9_determinism; apply Permutation_swap.
Defined.

(** C10 (entries of the report).  A source file that received a mark is a
    key of [dead] only with a non-empty list, made of locations the sweep
    found dead; a source file in scope that received no mark always is a
    key of [dead], and its list is empty when all its locations are
    ignored, in particular when it has none. *)
Theorem C10_report_entries fs fe c_files dml_files by_path f dead skipped :
  find_dead_methods fs fe c_files dml_files = Some (dead, skipped) ->
  linemarks_by_path fs c_files = Some by_path ->
  (f ∈ dict_keys by_path ->
     forall rep, dead !! f = Some rep ->
       rep ≠ []
       /\ exists X locs,
            dict_get f by_path = Some X
            /\ method_locations fs fe f = Some locs
            /\ report (sorted_linemarks X) (sorted location_ltb locs) = Some rep)
  /\ (f ∉ dict_keys by_path -> f ∈ dml_files ->
        exists locs rep,
          method_locations fs fe f = Some locs
          /\ dead !! f = Some rep
          /\ (Forall (fun loc => ignored loc = true) locs -> rep = [])).
Proof.
  intros Hrun Hscan.
  destruct (find_dead_methods_spec _ _ _ _ _ _ Hrun)
    as (by_path' & Hscan' & Hnd & _ & Hin & Hout & Hno).
  rewrite Hscan in Hscan'. simplify_eq. split.
  - intros [X HX]%dict_keys_elem rep Hrep.
    destruct (decide (f ∈ dml_files)) as [Hscope|Hscope];
      [|rewrite Hno in Hrep; done].
    destruct (Hin f X HX Hscope) as (locs & r & Hlocs & Hr & Hd).
    rewrite Hd in Hrep. destruct r as [|y r]; [done|]. simplify_eq.
    split; [done|]. exists X, locs. split_and!; [|done..].
    by apply dict_get_elem_NoDup.
  - intros Hkey Hscope.
    destruct (Hout f Hscope Hkey) as (locs & Hlocs & Hd).
    exists locs, (unmarked_report locs). split_and!; [done..|].
    apply unmarked_report_all_ignored.
Qed.

Lemma C10_report_entries_witness :
  (lit "/src/stubs.dml" ∈ dict_keys Sample.by_path ->
     forall rep, Sample.dead !! lit "/src/stubs.dml" = Some rep ->
       rep ≠ []
       /\ exists X locs,
            dict_get (lit "/src/stubs.dml") Sample.by_path = Some X
            /\ method_locations Sample.fs Sample.fe (lit "/src/stubs.dml")
               = Some locs
            /\ report (sorted_linemarks X) (sorted location_ltb locs) = Some rep)
  /\ (lit "/src/stubs.dml" ∉ dict_keys Sample.by_path ->
      lit "/src/stubs.dml" ∈ Sample.dml_files ->
        exists locs rep,
          method_locations Sample.fs Sample.fe (lit "/src/stubs.dml") = Some locs
          /\ Sample.dead !! lit "/src/stubs.dml" = Some rep
          /\ (Forall (fun loc => ignored loc = true) locs -> rep = [])).
Proof.
  apply (C10_report_entries Sample.fs Sample.fe Sample.c_files
           Sample.dml_files Sample.by_path (lit "/src/stubs.dml")
           Sample.dead Sample.skipped);
    vm_compute; reflexivity.
Defined.

(** * Further properties of the module *)

(** X1 (the marks are the directives).  A path is a key of
    [linemarks_by_path] exactly when a [#line] directive of one of the C
    files resolves to it from another path than its own, and its set
    holds exactly the line numbers of those directives. *)
Theorem X1_marks_are_directives fs c_files by_path k :
  linemarks_by_path fs c_files = Some by_path ->
  (k ∈ dict_keys by_path
   <-> exists c text d n, c ∈ c_files /\ read_text fs c = Some text
                          /\ (d, n) ∈ directives text
                          /\ target fs c d = k /\ k ≠ c)
  /\ forall X n,
       dict_get k by_path = Some X ->
       n ∈ X <-> exists c text d, c ∈ c_files /\ read_text fs c = Some text
                                  /\ (d, n) ∈ directives text
                                  /\ target fs c d = k /\ k ≠ c.
Proof.
  intros Hscan. pose proof (linemarks_by_path_marks _ _ _ Hscan k) as Hmarks.
  split.
  - rewrite (linemarks_by_path_key _ _ _ _ Hscan). split.
    + intros (X & n & HX & Hn).
      destruct (proj1 (Hmarks n)) as (c & text & d & ?); [by exists X|].
      by exists c, text, d, n.
    + intros (c & text & d & n & H).
      destruct (proj2 (Hmarks n)) as (X & ? & ?); [by exists c, text, d|].
      by exists X, n.
  - intros X n HX%dict_get_Some_elem. rewrite <- Hmarks. split.
    + intros Hn. by exists X.
    + intros (X' & HX' & Hn).
      by rewrite (dict_value_unique _ _ _ _ (linemarks_by_path_NoDup _ _ _ Hscan) HX HX').
Qed.

Lemma X1_marks_are_directives_witness :
  (lit "/src/dev.dml" ∈ dict_keys Sample.by_path
   <-> exists c text d n,
         c ∈ Sample.c_files /\ read_text Sample.fs c = Some text
         /\ (d, n) ∈ directives text
         /\ target Sample.fs c d = lit "/src/dev.dml" /\ lit "/src/dev.dml" ≠ c)
  /\ forall X n,
       dict_get (lit "/src/dev.dml") Sample.by_path = Some X ->
       n ∈ X <-> exists c text d,
                   c ∈ Sample.c_files /\ read_text Sample.fs c = Some text
                   /\ (d, n) ∈ directives text
                   /\ target Sample.fs c d = lit "/src/dev.dml"
                   /\ lit "/src/dev.dml" ≠ c.
Proof.
  apply (X1_marks_are_directives Sample.fs Sample.c_files Sample.by_path).
  vm_compute. reflexivity.
Defined.

(** X2 (scope partition).  [skipped] lists, once each and in the order in
    which they were first marked, the marked paths that are not in
    [dml_files]; such a path has no entry in [dead], whose keys all are
    in [dml_files]. *)
Theorem X2_scope_partition fs fe c_files dml_files by_path dead skipped :
  find_dead_methods fs fe c_files dml_files = Some (dead, skipped) ->
  linemarks_by_path fs c_files = Some by_path ->
  skipped = filter (fun p => p ∉ dml_files) (dict_keys by_path)
  /\ NoDup skipped
  /\ (forall f, f ∈ skipped -> (f ∉ dml_files) /\ dead !! f = None)
  /\ (forall f, is_Some (dead !! f) -> f ∈ dml_files).
Proof.
  intros Hrun Hscan.
  destruct (find_dead_methods_spec _ _ _ _ _ _ Hrun)
    as (by_path' & Hscan' & Hnd & -> & _ & _ & Hno).
  rewrite Hscan in Hscan'. simplify_eq. split_and!.
  - done.
  - by apply NoDup_filter.
  - intros f [Hf _]%list_elem_of_filter. split; [done|by apply Hno].
  - intros f [rep Hrep]. destruct (decide (f ∈ dml_files)) as [|Hf]; [done|].
    rewrite (Hno f Hf) in Hrep. done.
Qed.

Lemma X2_scope_partition_witness :
  Sample.skipped
  = filter (fun p => p ∉ Sample.dml_files) (dict_keys Sample.by_path)
  /\ NoDup Sample.skipped
  /\ (forall f, f ∈ Sample.skipped ->
                (f ∉ Sample.dml_files) /\ Sample.dead !! f = None)
  /\ (forall f, is_Some (Sample.dead !! f) -> f ∈ Sample.dml_files).
Proof.
  apply (X2_scope_partition Sample.fs Sample.fe Sample.c_files);
    vm_compute; reflexivity.
Defined.


(** X4 (what the sweep decides).  In a file of [dml_files] with marks,
    the report lists, in sorted order, the locations that are not ignored
    and for which every mark beyond the last lines of all the locations
    sorted before them is also beyond their own last line; the file has
    no entry when there is no such location. *)
Theorem X4_sweep_rule fs fe c_files dml_files by_path f X locs dead skipped :
  find_dead_methods fs fe c_files dml_files = Some (dead, skipped) ->
  linemarks_by_path fs c_files = Some by_path ->
  dict_get f by_path = Some X ->
  f ∈ dml_files ->
  method_locations fs fe f = Some locs ->
  dead !! f = entry_of (sweep_rule X None (sorted location_ltb locs)).
Proof.
  intros Hrun Hscan HX%dict_get_Some_elem Hscope Hlocs.
  by eapply marked_entry.
Qed.

Lemma X4_sweep_rule_witness :
  Wide.dead !! lit "/src/wide.dml"
  = entry_of (sweep_rule {[12; 31]} None (sorted location_ltb Wide.locs)).
Proof.
  apply (X4_sweep_rule Wide.fs Wide.fe Wide.c_files Wide.dml_files
           Wide.by_path (lit "/src/wide.dml") {[12; 31]} Wide.locs
           Wide.dead []);
    try (vm_compute; reflexivity).
  decide_ground.
Defined.

(** X5 (no false positives).  When the locations of a marked file are
    distinct, non-empty and share no line, every method the sweep reports
    is not ignored and has no mark inside its span. *)
Theorem X5_reported_has_no_mark_inside
    fs fe c_files dml_files by_path f X locs rep x dead skipped :
  find_dead_methods fs fe c_files dml_files = Some (dead, skipped) ->
  linemarks_by_path fs c_files = Some by_path ->
  dict_get f by_path = Some X ->
  method_locations fs fe f = Some locs ->
  separated locs ->
  dead !! f = Some rep ->
  x ∈ rep ->
  exists loc, loc ∈ locs /\ x = (first_line loc, name loc)
              /\ dead_by_span X loc.
Proof.
  intros Hrun Hscan HX%dict_get_Some_elem Hlocs Hsep Hrep Hx.
  assert (Hscope : f ∈ dml_files).
  { destruct (find_dead_methods_spec _ _ _ _ _ _ Hrun) as (? & _ & _ & _ & _ & _ & Hno).
    destruct (decide (f ∈ dml_files)) as [|Hf]; [done|].
    rewrite (Hno f Hf) in Hrep. done. }
  rewrite (marked_entry _ _ _ _ _ _ _ _ _ _ Hrun Hscan HX Hscope Hlocs) in Hrep.
  apply entry_of_Some in Hrep as [<- _].
  assert (sweep_rule X None (sorted location_ltb locs)
          `sublist_of` span_report X (sorted location_ltb locs)) as Hsub.
  { apply sweep_rule_sublist_span; [by apply Forall_forall|].
    by apply separated_no_overlap. }
  apply sublist_subseteq in Hsub. apply Hsub in Hx.
  unfold span_report in Hx.
  apply list_elem_of_fmap in Hx
    as (loc & -> & [Hd Hin%elem_of_sorted]%list_elem_of_filter).
  by exists loc.
Qed.

Lemma X5_reported_has_no_mark_inside_witness :
  exists loc,
    loc ∈ Wide.locs
    /\ (20, lit "c") = (first_line loc, name loc)
    /\ dead_by_span {[12; 31]} loc.
Proof.
  apply (X5_reported_has_no_mark_inside Wide.fs Wide.fe Wide.c_files
           Wide.dml_files Wide.by_path (lit "/src/wide.dml") {[12; 31]}
           Wide.locs [(1, lit "a"); (20, lit "c")] (20, lit "c") Wide.dead []);
    try (vm_compute; reflexivity).
  - decide_ground.
  - right. by left.
Defined.

(** X6 (agreement with the docstring).  When moreover every mark of the
    file points into one of its locations, the report is exactly the
    list of the methods that are not ignored and have no mark inside
    their span, in sorted order. *)
Theorem X6_sweep_is_span_containment
    fs fe c_files dml_files by_path f X locs dead skipped :
  find_dead_methods fs fe c_files dml_files = Some (dead, skipped) ->
  linemarks_by_path fs c_files = Some by_path ->
  dict_get f by_path = Some X ->
  f ∈ dml_files ->
  method_locations fs fe f = Some locs ->
  separated locs ->
  covered X locs ->
  dead !! f = entry_of (span_report X (sorted location_ltb locs)).
Proof.
  intros Hrun Hscan HX%dict_get_Some_elem Hscope Hlocs Hsep Hcov.
  rewrite (marked_entry _ _ _ _ _ _ _ _ _ _ Hrun Hscan HX Hscope Hlocs).
  f_equal. apply sweep_rule_span.
  - by apply Forall_forall.
  - by apply separated_no_overlap.
  - by apply covered_sorted.
Qed.

Lemma X6_sweep_is_span_containment_witness :
  Wide.dead !! lit "/src/wide.dml"
  = entry_of (span_report {[12; 31]} (sorted location_ltb Wide.locs)).
Proof.
  apply (X6_sweep_is_span_containment Wide.fs Wide.fe Wide.c_files
           Wide.dml_files Wide.by_path (lit "/src/wide.dml") {[12; 31]}
           Wide.locs Wide.dead []);
    try (vm_compute; reflexivity); decide_ground.
Defined.

(** X7 (more C files, fewer dead methods).  When C files are added to the
    analysis, every method reported for a file was already reported for
    it with the fewer C files, and every skipped path stays skipped. *)
Theorem X7_more_c_files_fewer_dead
    fs fe c_files c_files' dml_files dead skipped dead' skipped' :
  c_files ⊆ c_files' ->
  find_dead_methods fs fe c_files dml_files = Some (dead, skipped) ->
  find_dead_methods fs fe c_files' dml_files = Some (dead', skipped') ->
  (forall f rep', dead' !! f = Some rep' ->
                  exists rep, dead !! f = Some rep /\ rep' ⊆ rep)
  /\ skipped ⊆ skipped'.
Proof.
  intros Hsub Hrun Hrun'.
  destruct (find_dead_methods_spec _ _ _ _ _ _ Hrun)
    as (by_path & Hscan & Hnd & -> & Hin & Hout & Hno).
  destruct (find_dead_methods_spec _ _ _ _ _ _ Hrun')
    as (by_path' & Hscan' & Hnd' & -> & Hin' & Hout' & Hno').
  split.
  - intros f rep' Hrep'.
    destruct (decide (f ∈ dml_files)) as [Hf|Hf];
      [|rewrite (Hno' f Hf) in Hrep'; done].
    destruct (decide (f ∈ dict_keys by_path')) as [Hk'|Hk'].
    + apply dict_keys_elem in Hk' as [X' HX'].
      destruct (Hin' f X' HX' Hf) as (locs & r' & Hlocs & _ & _).
      rewrite (marked_entry _ _ _ _ _ _ _ _ _ _ Hrun' Hscan' HX' Hf Hlocs) in Hrep'.
      apply entry_of_Some in Hrep' as [<- Hne].
      destruct (decide (f ∈ dict_keys by_path)) as [Hk|Hk].
      * apply dict_keys_elem in Hk as [X HX].
        destruct (linemarks_by_path_mono _ _ _ _ _ _ _ Hsub Hscan Hscan' HX)
          as (X'' & HX'' & HXX).
        rewrite <- (dict_value_unique _ _ _ _ Hnd' HX' HX'') in HXX.
        pose proof (sweep_rule_mono X X' (sorted location_ltb locs) HXX None) as Hm.
        rewrite (marked_entry _ _ _ _ _ _ _ _ _ _ Hrun Hscan HX Hf Hlocs).
        exists (sweep_rule X None (sorted location_ltb locs)).
        split; [|by apply sublist_subseteq].
        destruct (sweep_rule X None (sorted location_ltb locs)); [|done].
        apply sublist_nil_r in Hm. done.
      * rewrite (unmarked_entry _ _ _ _ _ _ _ _ _ Hrun Hscan Hk Hf Hlocs).
        eexists. split; [done|].
        intros x (loc & Hl%elem_of_sorted & ? & ?)%sweep_rule_elem.
        apply elem_of_unmarked_report. by exists loc.
    + destruct (Hout' f Hf Hk') as (locs & Hlocs & Hd'). rewrite Hd' in Hrep'.
      simplify_eq. exists (unmarked_report locs). split; [|done].
      eapply unmarked_entry; [done..| |done|done].
      intros [X HX]%dict_keys_elem. apply Hk'.
      destruct (linemarks_by_path_mono _ _ _ _ _ _ _ Hsub Hscan Hscan' HX)
        as (X' & HX' & _).
      by apply (elem_of_dict_keys _ X').
  - intros p [Hp [X HX]%dict_keys_elem]%list_elem_of_filter.
    apply list_elem_of_filter. split; [done|].
    destruct (linemarks_by_path_mono _ _ _ _ _ _ _ Hsub Hscan Hscan' HX)
      as (X' & HX' & _).
    by apply (elem_of_dict_keys _ X').
Qed.

Lemma X7_more_c_files_fewer_dead_witness :
  (forall f rep',
     (<[lit "/src/none.dml" := [(1, lit "p")]]> ∅
        : gmap (list N) (list (Z * list N))) !! f = Some rep' ->
     exists rep,
       (<[lit "/src/dev.dml" := [(11, lit "c")]]>
          (<[lit "/src/none.dml" := [(1, lit "p")]]> ∅)
          : gmap (list N) (list (Z * list N))) !! f = Some rep
       /\ rep' ⊆ rep)
  /\ [lit "/src/old.dml"; lit "/lib/util.dml"]
     ⊆ [lit "/src/old.dml"; lit "/lib/util.dml"].
Proof.
  apply (X7_more_c_files_fewer_dead Sample.fs Sample.fe
           [lit "/o/dev-dml.c"] [lit "/o/dev-dml.c"; lit "/o/aux-dml.c"]
           [lit "/src/dev.dml"; lit "/src/none.dml"]).
  - decide_ground.
  - vm_compute. reflexivity.
  - vm_compute. reflexivity.
Defined.

(** X8 (no C files).  Without any C file nothing is skipped and every
    file of [dml_files] is reported with all its methods that are not
    ignored, provided [method_locations] returns for each of them. *)
Theorem X8_no_c_files fs fe dml_files :
  (forall f, f ∈ dml_files -> is_Some (method_locations fs fe f)) ->
  exists dead,
    find_dead_methods fs fe [] dml_files = Some (dead, [])
    /\ forall f,
         dead !! f = if decide (f ∈ dml_files)
                     then unmarked_report <$> method_locations fs fe f
                     else None.
Proof.
  intros Hparse.
  destruct (find_dead_methods_total fs fe [] dml_files) as [[dead skipped] Hrun];
    [by intros c ?%elem_of_nil|done|].
  destruct (find_dead_methods_spec _ _ _ _ _ _ Hrun)
    as (by_path & Hscan & _ & -> & _ & Hout & Hno).
  cbv [linemarks_by_path sorted foldr for_each] in Hscan. simplify_eq.
  exists dead. split; [done|]. intros f.
  destruct (decide (f ∈ dml_files)) as [Hf|Hf]; [|by apply Hno].
  destruct (Hout f Hf) as (locs & -> & ->); [by intros ?%elem_of_nil|done].
Qed.

Lemma X8_no_c_files_witness :
  exists dead,
    find_dead_methods Sample.fs Sample.fe [] [lit "/src/dev.dml"]
    = Some (dead, [])
    /\ forall f,
         dead !! f = if decide (f ∈ [lit "/src/dev.dml"])
                     then unmarked_report
                            <$> method_locations Sample.fs Sample.fe f
                     else None.
Proof.
  apply (X8_no_c_files Sample.fs Sample.fe [lit "/src/dev.dml"]).
  intros f ->%list_elem_of_singleton. vm_compute. eauto.
Defined.

(** X9 (order of a report).  The entry of a file with marks lists the
    dead methods by ascending first line, whatever the order in which the
    front end yields them. *)
Theorem X9_marked_report_ascending fs fe c_files dml_files by_path f rep dead skipped :
  find_dead_methods fs fe c_files dml_files = Some (dead, skipped) ->
  linemarks_by_path fs c_files = Some by_path ->
  f ∈ dict_keys by_path ->
  dead !! f = Some rep ->
  StronglySorted (fun x y => fst x <= fst y) rep.
Proof.
  intros Hrun Hscan [X HX]%dict_keys_elem Hrep.
  destruct (find_dead_methods_spec _ _ _ _ _ _ Hrun)
    as (by_path' & Hscan' & _ & _ & Hin & _ & Hno).
  rewrite Hscan in Hscan'. simplify_eq.
  destruct (decide (f ∈ dml_files)) as [Hf|Hf];
    [|rewrite (Hno f Hf) in Hrep; done].
  destruct (Hin f X HX Hf) as (locs & r & Hlocs & _ & _).
  rewrite (marked_entry _ _ _ _ _ _ _ _ _ _ Hrun Hscan HX Hf Hlocs) in Hrep.
  apply entry_of_Some in Hrep as [<- _].
  apply sweep_rule_ascending, sorted_locations_first.
Qed.

Lemma X9_marked_report_ascending_witness :
  StronglySorted (fun x y => fst x <= fst y) [(1, lit "a"); (20, lit "c")].
Proof.
  apply (X9_marked_report_ascending Wide.fs Wide.fe Wide.c_files
           Wide.dml_files Wide.by_path (lit "/src/wide.dml") _
           Wide.dead []);
    try (vm_compute; reflexivity).
  decide_ground.
Defined.

(** X10 (source files of a C file).  For a C file whose text begins with
    a well-formed header, [dml_sources] yields the listed paths in order
    when all of them are absolute, and raises when one of them is not. *)
Theorem X10_dml_sources_of_header fs Path_of_str is_absolute c_file paths tail :
  read_text fs c_file = Some (header_block paths ++ tail) ->
  Forall (Forall (fun y => is_linebreak y = false)) paths ->
  dml_sources fs Path_of_str is_absolute c_file
  = if forallb (fun s => is_absolute (Path_of_str s)) paths
    then Some (map Path_of_str paths)
    else None.
Proof.
  intros Htext Hpaths. unfold dml_sources. rewrite Htext.
  cbn [mbind option_bind]. unfold dml_sources_from_body.
  destruct (header_match paths tail) as (m & -> & Hg).
  { eapply Forall_impl; [exact Hpaths|]. intros p Hp.
    eapply Forall_impl; [exact Hp|]. apply is_linebreak_LF. }
  cbn [mbind option_bind]. rewrite Hg. cbn [mbind option_bind].
  rewrite splitlines_header_lines by done.
  rewrite for_each_yield_absolute, map_map.
  assert (map (fun p => drop 5 (lit " *   " ++ p)) paths = paths) as ->; [|done].
  clear. induction paths as [|p paths IH]; [done|]. cbn [map]. by rewrite IH.
Qed.

Lemma X10_dml_sources_of_header_witness :
  dml_sources
    (Sample.posix_fs (lit "/w")
       [(lit "/o/dev-dml.c",
         header_block [lit "/src/dev.dml"; lit "lib/util.dml"]
         ++ Sample.dev_c)])
    (fun s => s) Sample.is_absolute (lit "/o/dev-dml.c")
  = if forallb (fun s => Sample.is_absolute s)
               [lit "/src/dev.dml"; lit "lib/util.dml"]
    then Some (map (fun s => s) [lit "/src/dev.dml"; lit "lib/util.dml"])
    else None.
Proof.
  apply (X10_dml_sources_of_header _ (fun s => s) Sample.is_absolute _
           [lit "/src/dev.dml"; lit "lib/util.dml"] Sample.dev_c).
  - vm_compute. reflexivity.
  - repeat constructor.
Defined.

(** X11 (no header, no sources).  When the text does not begin with the
    four header lines, [dml_sources_from_body] raises: the header is not
    searched for further down. *)
Theorem X11_header_must_come_first body :
  ~ (c_dml_header `prefix_of` body) ->
  dml_sources_from_body body = None.
Proof.
  intros Hno. unfold dml_sources_from_body, re_match, c_dml_header_re.
  rewrite run_Seq_cons, (run_Lit_no_prefix c_dml_header (start body)) by done.
  reflexivity.
Qed.

Lemma X11_header_must_come_first_witness :
  dml_sources_from_body (lit "
" ++ header_block [lit "/src/dev.dml"]) = None.
Proof.
  apply X11_header_must_come_first. decide_ground.
Defined.

(** X12 (what a source path cannot hold).  No path that
    [dml_sources_from_body] returns holds a character that
    [str.splitlines] takes for a line boundary. *)
Theorem X12_sources_hold_no_line_boundary body paths :
  dml_sources_from_body body = Some paths ->
  Forall (Forall (fun y => is_linebreak y = false)) paths.
Proof.
  unfold dml_sources_from_body.
  destruct (re_match c_dml_header_re body) as [m|]; [|done].
  cbn [mbind option_bind]. destruct (group 1 m) as [g|]; [|done].
  cbn [mbind option_bind]. intros [= <-].
  pose proof (splitlines_go_no_linebreak g false [] (Forall_nil_2 _)) as Hl.
  fold (splitlines g) in Hl. apply Forall_forall.
  intros p (l & -> & Hin)%list_elem_of_fmap.
  rewrite Forall_forall in Hl. by apply Forall_drop, Hl.
Qed.

Lemma X12_sources_hold_no_line_boundary_witness :
  Forall (Forall (fun y => is_linebreak y = false)) [lit "/a"; []].
Proof.
  apply (X12_sources_hold_no_line_boundary
           (header_block [lit "/a" ++ [CR] ++ lit "b.dml"])).
  vm_compute. reflexivity.
Defined.

(** X13 (which methods are ignored).  A [method] node whose body is a
    compound statement yields one location, from the line of its site to
    the line of its closing brace, which is ignored exactly when one of
    its input parameters has no type or one of the statements of its
    body is of kind [error].  A [sharedmethod] node yields nothing when
    it has no body and a location that is never ignored when it has
    one. *)
Theorem X13_method_nodes first last n quads o1 o2 o3 bsite stmts brest bargs
    a1 a2 a3 a4 a5 site more :
  traverse_ast
    (Ast (lit "method") (Site first)
         (PyStr n
          :: Tuple [Tuple (map formal quads); o1; o2; o3;
                    Ast (lit "compound") bsite
                        (Tuple (map statement stmts) :: brest)]
          :: a2 :: a3 :: Site last :: more))
  = Some [Location first last n
            (existsb untyped quads || existsb error_statement stmts)]
  /\ traverse_ast
       (Ast (lit "sharedmethod") site
            (PyStr n :: a1 :: a2 :: a3 :: a4 :: a5 :: PyNone :: more))
     = Some []
  /\ traverse_ast
       (Ast (lit "sharedmethod") (Site first)
            (PyStr n :: a1 :: a2 :: a3 :: a4 :: a5
             :: Ast (lit "compound") bsite bargs :: Site last :: more))
     = Some [Location first last n false].
Proof.
  split_and!.
  - rewrite traverse_method, any_untyped_formals, any_error_statements.
    reflexivity.
  - apply traverse_sharedmethod_abstract.
  - apply traverse_sharedmethod.
Qed.

(** X14 (nesting is transparent).  A [dml], [object], template or
    conditional node yields what its statements yield, in order (for a
    conditional, those of the first branch, then those of the second);
    so replacing such a node, in the statements of the file, by the
    statements it holds changes nothing, not even whether the walk
    raises. *)
Theorem X14_nesting_is_transparent site a pre w inner post :
  statements_of w = Some inner ->
  traverse_ast w = @concat _ <$> mapM traverse_ast inner
  /\ traverse_ast (Ast (lit "dml") site [a; Tuple (pre ++ w :: post)])
     = traverse_ast (Ast (lit "dml") site [a; Tuple (pre ++ inner ++ post)]).
Proof.
  intros Hw%traverse_statements_of. split; [done|].
  rewrite !traverse_dml, !concat_mapM_app, concat_mapM_cons, Hw.
  destruct (@concat _ <$> mapM traverse_ast pre) as [lp|]; [|done].
  cbn [mbind option_bind].
  destruct (@concat _ <$> mapM traverse_ast inner) as [li|]; [|done].
  cbn [mbind option_bind].
  by destruct (@concat _ <$> mapM traverse_ast post).
Qed.

Lemma X14_nesting_is_transparent_witness :
  traverse_ast
    (Ast (lit "hashif") PyNone
         [PyNone; Tuple [Sample.method 6 10 "b" [] []];
          Tuple [Sample.method 11 20 "c" [] []]])
  = @concat _ <$> mapM traverse_ast
                    [Sample.method 6 10 "b" [] []; Sample.method 11 20 "c" [] []]
  /\ traverse_ast
       (Ast (lit "dml") PyNone
            [PyNone;
             Tuple ([Sample.method 1 5 "a" [] []]
                    ++ Ast (lit "hashif") PyNone
                         [PyNone; Tuple [Sample.method 6 10 "b" [] []];
                          Tuple [Sample.method 11 20 "c" [] []]]
                    :: [])])
     = traverse_ast
         (Ast (lit "dml") PyNone
              [PyNone;
               Tuple ([Sample.method 1 5 "a" [] []]
                      ++ [Sample.method 6 10 "b" [] []; Sample.method 11 20 "c" [] []]
                      ++ [])]).
Proof.
  apply (X14_nesting_is_transparent PyNone PyNone [Sample.method 1 5 "a" [] []]
           (Ast (lit "hashif") PyNone
                [PyNone; Tuple [Sample.method 6 10 "b" [] []];
                 Tuple [Sample.method 11 20 "c" [] []]])
           [Sample.method 6 10 "b" [] []; Sample.method 11 20 "c" [] []] []).
  vm_compute. reflexivity.
Defined.

(** X15 (closed set of kinds).  A node of one of the eighteen kinds that
    hold no method yields nothing, whatever its arguments; a node whose
    kind is none of those the walk knows raises, and so does a method
    whose body is not a compound statement. *)
Theorem X15_other_nodes kind site args :
  (kind ∈ no_span_kinds -> traverse_ast (Ast kind site args) = Some [])
  /\ (kind ∉ no_span_kinds ->
      kind ∉ map lit ["dml"; "object"; "method"; "sharedmethod";
                      "toplevel_if"; "hashif"]%string ->
      kind ∉ template_kinds ->
      traverse_ast (Ast kind site args) = None)
  /\ (forall n inp o1 o2 o3 bsite bargs a2 a3 rbrace more,
        kind ≠ lit "compound" ->
        traverse_ast
          (Ast (lit "method") site
               (n :: Tuple [Tuple inp; o1; o2; o3; Ast kind bsite bargs]
                :: a2 :: a3 :: rbrace :: more))
        = None).
Proof.
  split_and!.
  - apply traverse_no_span.
  - apply traverse_unknown.
  - intros. by apply traverse_method_not_compound.
Qed.

(** X16 (a path that is not canonical).  A file of [dml_files] whose
    path, as given, is never the result of [resolve] (a relative path,
    say) is taken to have no marks: all its methods that are not ignored
    are reported, whatever the C files hold. *)
Theorem X16_unresolved_path_is_all_dead
    fs fe c_files dml_files f locs dead skipped :
  find_dead_methods fs fe c_files dml_files = Some (dead, skipped) ->
  f ∈ dml_files ->
  (forall p, resolve fs p ≠ f) ->
  method_locations fs fe f = Some locs ->
  dead !! f = Some (unmarked_report locs).
Proof.
  intros Hrun Hscope Hres Hlocs.
  destruct (find_dead_methods_spec _ _ _ _ _ _ Hrun) as (by_path & Hscan & _).
  eapply unmarked_entry; [done..| |done|done].
  rewrite (linemarks_by_path_key _ _ _ _ Hscan).
  intros (X & n & HX & Hn).
  destruct (proj1 (linemarks_by_path_marks _ _ _ Hscan f n))
    as (c & text & d & _ & _ & _ & Ht & _); [by exists X|].
  by apply (Hres (joinpath fs (parent fs c) d)).
Qed.

Lemma X16_unresolved_path_is_all_dead_witness :
  Unresolved.dead !! lit "dev.dml"
  = Some (unmarked_report [Location 1 5 (lit "a") false]).
Proof.
  apply (X16_unresolved_path_is_all_dead Unresolved.fs Unresolved.fe
           Unresolved.c_files Unresolved.dml_files (lit "dev.dml") _
           Unresolved.dead Unresolved.skipped).
  - vm_compute. reflexivity.
  - decide_ground.
  - intros p. cbn [resolve Unresolved.fs Sample.posix_fs].
    destruct (Sample.is_absolute p) eqn:Hp; [by intros ->|discriminate].
  - vm_compute. reflexivity.
Defined.

(** X17 (what the scanner reads).  In a text made of lines joined by LF,
    the directives found are, in order, those of the lines that consist
    of spaces, [#line], one space, a number in ASCII digits, one space
    and a file name between double quotes, and of nothing else: any other
    line gives nothing, whatever it holds. *)
Theorem X17_directives_of_lines ls :
  Forall c_line_ok ls ->
  directives (join_lines (map render ls)) = omap directive_of_line ls.
Proof.
  intros Hls. unfold directives, finditer.
  apply directives_join_lines; auto.
Qed.

Lemma X17_directives_of_lines_witness :
  directives
    (join_lines
       (map render [ Other []; Other (lit "foo");
                     Directive 3 (lit "109") (lit "foo.dml");
                     Other (lit "   bar");
                     Other (lit "#line " ++ 34%N :: lit "foo.dml" ++ [34%N]);
                     Directive 0 (lit "7") (lit "a" ++ 34%N :: lit "b.dml");
                     Other (directive_text 0 (lit "8") (lit "c.dml") ++ [CR]) ]))
  = omap directive_of_line
      [ Other []; Other (lit "foo"); Directive 3 (lit "109") (lit "foo.dml");
        Other (lit "   bar");
        Other (lit "#line " ++ 34%N :: lit "foo.dml" ++ [34%N]);
        Directive 0 (lit "7") (lit "a" ++ 34%N :: lit "b.dml");
        Other (directive_text 0 (lit "8") (lit "c.dml") ++ [CR]) ].
Proof.
  apply X17_directives_of_lines.
  repeat apply Forall_cons_2; [| | | | | | |apply Forall_nil_2].
  - split; [constructor|]. intros k d f _ _ Heq.
    by apply (directive_text_nonempty k d f).
  - split; [by repeat constructor|].
    intros [|k] d f _ _; discriminate.
  - split_and!; [done| |by repeat constructor].
    repeat constructor; vm_compute; by intros ?.
  - split; [by repeat constructor|].
    intros [|[|[|[|k]]]] d f _ _; discriminate.
  - split; [by repeat constructor|].
    intros [|k] d f Hne Hd; [|discriminate].
    unfold directive_text. cbn [replicate app]. intros Heq.
    apply (app_inv_head (lit "#line ")) in Heq.
    destruct Hd as [|y d [Hlo _] _]; [done|].
    injection Heq as <- _. done.
  - split_and!; [done| |by repeat constructor].
    repeat constructor; vm_compute; by intros ?.
  - split; [by repeat constructor|].
    intros k d f _ _. rewrite (directive_text_snoc k d f).
    intros [_ [=]]%app_inj_tail.
Defined.
